(** * GPT-2 text prediction notebook: the sequence-generation core

    A shallow embedding of the Python functions of
    [notebooks/223-gpt2-text-prediction/223-gpt2-text-prediction.ipynb]
    ([softmax], [process_logits], [get_top_k_logits], [generate_sequence])
    and of the NumPy primitives they call.

    Conventions of the embedding.
    - The notebook works on a batch of one row, so an array of shape
      [(1, n)] is the list of its single row.
    - A float64 is the real number it denotes, or one of the three IEEE
      special values.  The comparisons are those of the reals; the
      arithmetic on finite values is exact, except in [softmax_fl], where
      each operation of [softmax] rounds its result.
    - Python exceptions are values of [exn]; a function that can raise
      returns a [result].
    - The compiled model and the random generator are external: they are
      the two fields of a [world]. *)

From Stdlib Require Import Reals Lra Lia ZArith List Bool Permutation Sorted.
Import ListNotations.

Open Scope R_scope.

(** ** Exceptions *)

Inductive exn : Type :=
| ValueError
| IndexError
| ModelError.

Inductive result (A : Type) : Type :=
| Ok (a : A)
| Err (e : exn).
Arguments Ok {A} a.
Arguments Err {A} e.

Definition bind {A B : Type} (c : result A) (k : A -> result B) : result B :=
  match c with
  | Ok a => k a
  | Err e => Err e
  end.

Notation "x <- c ;; k" := (bind c (fun x => k))
  (at level 61, c at next level, right associativity).

(** ** float64 values *)

Inductive float : Type :=
| NaN
| NInf
| PInf
| Fin (r : R).

Definition Rltb (x y : R) : bool := if Rlt_dec x y then true else false.

Definition is_nan (a : float) : bool :=
  match a with NaN => true | _ => false end.

(** [a < b] on floats: false as soon as one side is NaN. *)
Definition fltb (a b : float) : bool :=
  match a, b with
  | NaN, _ | _, NaN => false
  | NInf, NInf => false
  | NInf, _ => true
  | _, NInf => false
  | PInf, _ => false
  | Fin _, PInf => true
  | Fin x, Fin y => Rltb x y
  end.

Definition fneg (a : float) : float :=
  match a with
  | NaN => NaN
  | NInf => PInf
  | PInf => NInf
  | Fin x => Fin (- x)
  end.

Definition fadd (a b : float) : float :=
  match a, b with
  | NaN, _ | _, NaN => NaN
  | NInf, PInf | PInf, NInf => NaN
  | NInf, _ | _, NInf => NInf
  | PInf, _ | _, PInf => PInf
  | Fin x, Fin y => Fin (x + y)
  end.

Definition fsub (a b : float) : float := fadd a (fneg b).

Definition fabs (a : float) : float :=
  match a with
  | NaN => NaN
  | NInf | PInf => PInf
  | Fin x => Fin (Rabs x)
  end.

(** Division; every zero of the model is the positive zero. *)
Definition fdiv (a b : float) : float :=
  match a, b with
  | NaN, _ | _, NaN => NaN
  | (NInf | PInf), (NInf | PInf) => NaN
  | Fin _, (NInf | PInf) => Fin 0
  | PInf, Fin y => if Rltb y 0 then NInf else PInf
  | NInf, Fin y => if Rltb y 0 then PInf else NInf
  | Fin x, Fin y =>
      if Rltb y 0 then Fin (x / y)
      else if Rltb 0 y then Fin (x / y)
      else if Rltb 0 x then PInf
      else if Rltb x 0 then NInf
      else NaN
  end.

Definition fexp (a : float) : float :=
  match a with
  | NaN => NaN
  | NInf => Fin 0
  | PInf => PInf
  | Fin x => Fin (exp x)
  end.

(** A logit is a real score or minus infinity. *)
Definition is_logit (a : float) : Prop :=
  match a with
  | Fin _ | NInf => True
  | _ => False
  end.

Definition is_finite (a : float) : Prop :=
  match a with
  | Fin _ => True
  | _ => False
  end.

(** The order of the non-NaN floats. *)
Definition fle (a b : float) : Prop :=
  match a, b with
  | NaN, _ | _, NaN => False
  | NInf, _ => True
  | _, NInf => False
  | _, PInf => True
  | PInf, _ => False
  | Fin x, Fin y => x <= y
  end.

(** ** NumPy primitives *)

(** [np.sort] orders a row increasingly and puts every NaN last. *)
Definition np_leb (a b : float) : bool :=
  match a, b with
  | _, NaN => true
  | NaN, _ => false
  | _, _ => negb (fltb b a)
  end.

Fixpoint np_insert (a : float) (l : list float) : list float :=
  match l with
  | [] => [a]
  | b :: l' => if np_leb a b then a :: l else b :: np_insert a l'
  end.

Fixpoint np_sort (l : list float) : list float :=
  match l with
  | [] => []
  | a :: l' => np_insert a (np_sort l')
  end.

(** The reductions [np.min] and [np.max] propagate NaN and raise
    ValueError on an empty array. *)
Definition fmin (a b : float) : float :=
  if is_nan a then a else if is_nan b then b else if fltb b a then b else a.

Definition fmax (a b : float) : float :=
  if is_nan a then a else if is_nan b then b else if fltb a b then b else a.

Definition np_min (l : list float) : result float :=
  match l with
  | [] => Err ValueError
  | a :: l' => Ok (fold_left fmin l' a)
  end.

Definition np_max (l : list float) : result float :=
  match l with
  | [] => Err ValueError
  | a :: l' => Ok (fold_left fmax l' a)
  end.

Definition np_sum (l : list float) : float := fold_left fadd l (Fin 0).

Fixpoint cumsum_from (acc : float) (l : list float) : list float :=
  match l with
  | [] => []
  | a :: l' => fadd acc a :: cumsum_from (fadd acc a) l'
  end.

Definition np_cumsum (l : list float) : list float := cumsum_from (Fin 0) l.

(** [a.searchsorted(v, side='right')] on a nondecreasing array: the
    first position whose entry exceeds [v], the length when there is
    none. *)
Fixpoint searchsorted_right (cdf : list float) (v : float) : nat :=
  match cdf with
  | [] => O
  | c :: cdf' => if fltb v c then O else S (searchsorted_right cdf' v)
  end.

(** Python indexing [l[i]]: a negative index counts from the end. *)
Definition py_index {A : Type} (l : list A) (i : Z) : result A :=
  let n := Z.of_nat (length l) in
  let j := if (i <? 0)%Z then (i + n)%Z else i in
  if ((j <? 0) || (n <=? j))%Z then Err IndexError
  else match nth_error l (Z.to_nat j) with
       | Some a => Ok a
       | None => Err IndexError
       end.

Fixpoint set_nth {A : Type} (l : list A) (n : nat) (a : A) : list A :=
  match l, n with
  | [], _ => []
  | _ :: l', O => a :: l'
  | b :: l', S n' => b :: set_nth l' n' a
  end.

(** Python item assignment [l[i] = a]. *)
Definition py_setitem {A : Type} (l : list A) (i : Z) (a : A)
  : result (list A) :=
  let n := Z.of_nat (length l) in
  let j := if (i <? 0)%Z then (i + n)%Z else i in
  if ((j <? 0) || (n <=? j))%Z then Err IndexError
  else Ok (set_nth l (Z.to_nat j) a).

(** The tolerance of [np.random.choice] on the sum of [p]: the square
    root of the float64 machine epsilon. *)
Definition atol : R := sqrt (/ 2 ^ 52).

(** [np.random.choice(len(p), 1, p=p, replace=True)], given the uniform
    sample [u] of [[0, 1)] that the generator hands out: [p] is
    validated, its cumulative sums are normalised by the last one and
    bisected at [u]. *)
Definition choice (p : list float) (u : R) : result Z :=
  match p with
  | [] => Err ValueError
  | _ =>
      let p_sum := np_sum p in
      if is_nan p_sum then Err ValueError
      else if existsb (fun x => fltb x (Fin 0)) p then Err ValueError
      else if fltb (Fin atol) (fabs (fsub p_sum (Fin 1))) then Err ValueError
      else
        let cdf := np_cumsum p in
        let total := last cdf NaN in
        let cdf := map (fun c => fdiv c total) cdf in
        Ok (Z.of_nat (searchsorted_right cdf (Fin u)))
  end.

(** ** The notebook's functions *)

(** [[
def softmax(x):
    e_x = np.exp(x - np.max(x, axis=-1, keepdims=True))
    summation = e_x.sum(axis=-1, keepdims=True)
    return e_x / summation
]] *)
Definition softmax (x : list float) : result (list float) :=
  m <- np_max x ;;
  let e_x := map (fun v => fexp (fsub v m)) x in
  let summation := np_sum e_x in
  Ok (map (fun e => fdiv e summation) e_x).

(** [[
def process_logits(input_ids, scores, eos_token_id, min_length=0):
    cur_length = input_ids.shape[-1]
    if cur_length < min_length:
        scores[:, eos_token_id] = -float("inf")
    return scores
]] *)
Definition process_logits (input_ids : list Z) (scores : list float)
  (eos_token_id : Z) (min_length : Z) : result (list float) :=
  let cur_length := Z.of_nat (length input_ids) in
  if (cur_length <? min_length)%Z then
    py_setitem scores eos_token_id NInf
  else Ok scores.

Definition default_min_length : Z := 0%Z.

(** [[
def get_top_k_logits(scores, top_k):
    filter_value = -float("inf")
    top_k = min(max(top_k, 1), scores.shape[-1])
    top_k_scores = -np.sort(-scores)[:, :top_k]
    indices_to_remove = scores < np.min(top_k_scores)
    filtred_scores = np.ma.array(scores, mask=indices_to_remove,
                                 fill_value=filter_value).filled()
    return filtred_scores
]] *)
Definition filled (scores : list float) (mask : list bool)
  (fill_value : float) : list float :=
  map (fun sm : float * bool => if snd sm then fill_value else fst sm)
    (combine scores mask).

Definition get_top_k_logits (scores : list float) (top_k : Z)
  : result (list float) :=
  let filter_value := NInf in
  let top_k := Z.min (Z.max top_k 1) (Z.of_nat (length scores)) in
  let top_k_scores :=
    map fneg (firstn (Z.to_nat top_k) (np_sort (map fneg scores))) in
  threshold <- np_min top_k_scores ;;
  let indices_to_remove := map (fun s => fltb s threshold) scores in
  let filtred_scores := filled scores indices_to_remove filter_value in
  Ok filtred_scores.

(** ** The generation loop *)

(** What is outside the notebook: the compiled network and NumPy's
    global random generator.  [compiled_model n x] is the answer to the
    call number [n] (counted from 0) on the input row [x]: a tensor of
    shape [(1, len, V)], given as the list of its rows, or an error of
    the runtime.  [random_sample n] is the uniform sample of [[0, 1)]
    handed out to the draw number [n]. *)
Record world : Type := {
  compiled_model : nat -> list Z -> result (list (list float));
  random_sample : nat -> R
}.

Inductive outcome : Type :=
| Returned (ids : list Z)
| Raised (e : exn)
| OutOfFuel.

Definition top_k_default : Z := 20%Z.

(** The body of the loop between the call of the model and the test of
    the stop condition:
[[
        next_token_logits = outputs[:, cur_input_len - 1, :]
        next_token_scores = process_logits(input_ids,
                                           next_token_logits, eos_token_id)
        top_k = 20
        next_token_scores = get_top_k_logits(next_token_scores, top_k)
        probs = softmax(next_token_scores)
        next_tokens = np.random.choice(probs.shape[-1], 1,
                                       p=probs[0], replace=True)
]] *)
Definition next_token (outputs : list (list float)) (input_ids : list Z)
  (eos_token_id : Z) (u : R) : result Z :=
  let cur_input_len := Z.of_nat (length input_ids) in
  next_token_logits <- py_index outputs (cur_input_len - 1)%Z ;;
  next_token_scores <-
    process_logits input_ids next_token_logits eos_token_id
      default_min_length ;;
  let top_k := top_k_default in
  next_token_scores <- get_top_k_logits next_token_scores top_k ;;
  probs <- softmax next_token_scores ;;
  choice probs u.

(** [[
def generate_sequence(input_ids, max_sequence_length=128,
                      eos_token_id=eos_token_id):
    while True:
        cur_input_len = len(input_ids[0])
        pad_len = max_sequence_length - cur_input_len
        model_input = np.concatenate((input_ids,
                                      [[eos_token_id] * pad_len]), axis=-1)
        outputs = compiled_model(inputs=[model_input])[output_keys]
        ...
        if cur_input_len == max_sequence_length or next_tokens == eos_token_id:
            break
        else:
            input_ids = np.concatenate((input_ids, [next_tokens]), axis=-1)
    return input_ids
]]
    [while True] runs on [fuel]; [calls] is the list of the inputs the
    model has been called on so far, oldest first.  Every iteration calls
    the model once and draws at most once, so the length of [calls]
    numbers both the call and the draw.  [[x] * n] is empty for a
    negative [n], as [repeat x (Z.to_nat n)] is. *)
Fixpoint generate_sequence (w : world) (fuel : nat) (calls : list (list Z))
  (input_ids : list Z) (max_sequence_length eos_token_id : Z)
  : list (list Z) * outcome :=
  match fuel with
  | O => (calls, OutOfFuel)
  | S fuel' =>
      let cur_input_len := Z.of_nat (length input_ids) in
      let pad_len := (max_sequence_length - cur_input_len)%Z in
      let model_input :=
        input_ids ++ repeat eos_token_id (Z.to_nat pad_len) in
      let calls' := calls ++ [model_input] in
      match
        outputs <- compiled_model w (length calls) model_input ;;
        next_token outputs input_ids eos_token_id
          (random_sample w (length calls))
      with
      | Err e => (calls', Raised e)
      | Ok next_tokens =>
          if ((cur_input_len =? max_sequence_length)
              || (next_tokens =? eos_token_id))%Z
          then (calls', Returned input_ids)
          else generate_sequence w fuel' calls' (input_ids ++ [next_tokens])
                 max_sequence_length eos_token_id
      end
  end.

(** The padded row that an iteration hands to the model. *)
Definition padded (input_ids : list Z) (max_sequence_length eos_token_id : Z)
  : list Z :=
  input_ids ++
  repeat eos_token_id
    (Z.to_nat (max_sequence_length - Z.of_nat (length input_ids))).

(** The token that the iteration starting with [calls] and [input_ids]
    samples: the call of the model followed by [next_token]. *)
Definition sampled_token (w : world) (calls : list (list Z))
  (input_ids : list Z) (max_sequence_length eos_token_id : Z) : result Z :=
  outputs <- compiled_model w (length calls)
               (padded input_ids max_sequence_length eos_token_id) ;;
  next_token outputs input_ids eos_token_id (random_sample w (length calls)).

(** A run of the notebook's function on a prompt. *)
Definition run (w : world) (fuel : nat) (prompt_tokens : list Z)
  (max_sequence_length eos_token_id : Z) : list (list Z) * outcome :=
  generate_sequence w fuel [] prompt_tokens max_sequence_length eos_token_id.

(** ** The filters on a store of arrays

    [process_logits] assigns into the array it is given and returns that
    same array; [get_top_k_logits] builds its result with
    [np.ma.array(...).filled()].  To tell a new array from a shared one,
    the arrays live in a store and the functions take and return
    addresses. *)
Definition heap : Type := list (list float).
Definition loc : Type := nat.

Definition load (h : heap) (l : loc) : list float := nth l h [].
Definition store (h : heap) (l : loc) (v : list float) : heap := set_nth h l v.
Definition alloc (h : heap) (v : list float) : heap * loc :=
  (h ++ [v], length h).

(** [scores[:, eos_token_id] = -float("inf")] writes into the array at
    [scores]; [return scores] returns the address it was given. *)
Definition process_logits_st (h : heap) (input_ids : list Z) (scores : loc)
  (eos_token_id : Z) (min_length : Z) : result (heap * loc) :=
  let cur_length := Z.of_nat (length input_ids) in
  if (cur_length <? min_length)%Z then
    v <- py_setitem (load h scores) eos_token_id NInf ;;
    Ok (store h scores v, scores)
  else Ok (h, scores).

(** [np.ma.array(scores, mask=m)] shares the data of [scores] (its
    [copy] argument defaults to [False]).  [filled()] copies the data and
    writes the fill value under the mask, but hands back the shared data
    itself when no entry is masked. *)
Definition get_top_k_logits_st (h : heap) (scores : loc) (top_k : Z)
  : result (heap * loc) :=
  let filter_value := NInf in
  let v := load h scores in
  let top_k := Z.min (Z.max top_k 1) (Z.of_nat (length v)) in
  let top_k_scores :=
    map fneg (firstn (Z.to_nat top_k) (np_sort (map fneg v))) in
  threshold <- np_min top_k_scores ;;
  let indices_to_remove := map (fun s => fltb s threshold) v in
  if existsb (fun b : bool => b) indices_to_remove then
    Ok (alloc h (filled v indices_to_remove filter_value))
  else Ok (h, scores).

(** ** Vocabulary of the statements *)

(** The value that [get_top_k_logits] gives to [top_k]. *)
Definition clamp_top_k (top_k : Z) (scores : list float) : Z :=
  Z.min (Z.max top_k 1) (Z.of_nat (length scores)).

(** The row in decreasing order, [-np.sort(-scores)]. *)
Definition sorted_desc (scores : list float) : list float :=
  map fneg (np_sort (map fneg scores)).

(** [a <= b] on floats. *)
Definition fleb (a b : float) : bool :=
  match a, b with
  | NaN, _ | _, NaN => false
  | _, _ => negb (fltb b a)
  end.

Definition count (p : float -> bool) (l : list float) : nat :=
  length (filter p l).

(** [t] is the [k]-th largest entry of [scores] (counted from 1, with
    repetitions): at least [k] entries are at or above it, fewer than [k]
    are strictly above it. *)
Definition is_kth_largest (scores : list float) (k : nat) (t : float) : Prop :=
  In t scores /\
  (k <= count (fun s => fleb t s) scores)%nat /\
  (count (fun s => fltb t s) scores < k)%nat.

(** Top-K truncation in the words of the specification: an entry
    strictly below the threshold becomes minus infinity, any other entry
    is kept. *)
Definition truncate_below (t : float) (scores : list float) : list float :=
  map (fun s => if fltb s t then NInf else s) scores.

(** The entries that [truncate_below] keeps. *)
Definition retained (t : float) (scores : list float) : nat :=
  count (fun s => negb (fltb s t)) scores.

Definition no_nan (l : list float) : Prop := Forall (fun a => a <> NaN) l.

Definition Rsum (l : list R) : R := fold_right Rplus 0 l.

(** A probability vector: finite, non-negative entries that sum to one. *)
Definition is_prob (a : float) : Prop :=
  match a with
  | Fin x => 0 <= x
  | _ => False
  end.

Definition is_distribution (p : list float) : Prop :=
  Forall is_prob p /\ np_sum p = Fin 1.

(** A row the model may answer with: real scores and minus infinities,
    one real score at least. *)
Definition logit_row (row : list float) : Prop :=
  Forall is_logit row /\ Exists is_finite row.

(** The model answers every call with a tensor of one such row per input
    position. *)
Definition well_formed_model (w : world) : Prop :=
  forall n x, exists outputs,
    compiled_model w n x = Ok outputs /\
    length outputs = length x /\
    Forall logit_row outputs.

Definition valid_draws (w : world) : Prop :=
  forall n, 0 <= random_sample w n < 1.

(** A row of [V] scores that is minus infinity everywhere but at [tok]. *)
Definition favoring (V : nat) (tok : nat) : list float :=
  repeat NInf tok ++ Fin 0 :: repeat NInf (V - S tok).

(** A model whose logits favour [tok] at every position, with any
    generator. *)
Definition favoring_world (V tok : nat) (rnd : nat -> R) : world :=
  {| compiled_model := fun _ x => Ok (repeat (favoring V tok) (length x));
     random_sample := rnd |}.

Definition is_finiteb (a : float) : bool :=
  match a with
  | Fin _ => true
  | _ => false
  end.

(** A model over a vocabulary of [V] tokens: every row it answers with
    is a row of logits of length [V]. *)
Definition vocabulary_model (w : world) (V : nat) : Prop :=
  forall n x, exists outputs,
    compiled_model w n x = Ok outputs /\
    length outputs = length x /\
    Forall (fun row => logit_row row /\ length row = V) outputs.

(** Filtering, softmax and the draw on one row, as the loop chains
    them. *)
Definition sample (row : list float) (top_k : Z) (u : R) : result Z :=
  scores <- get_top_k_logits row top_k ;;
  probs <- softmax scores ;;
  choice probs u.

(** The rows that are not rows of logits with a real score. *)
Inductive bad_row : list float -> Prop :=
| bad_nan (row : list float) : In NaN row -> bad_row row
| bad_pinf (row : list float) : no_nan row -> In PInf row -> bad_row row
| bad_ninf (row : list float) :
    row <> [] -> Forall (fun a => a = NInf) row -> bad_row row.

(** A model that answers every call with the same tensor. *)
Definition constant_world (outputs : list (list float)) (rnd : nat -> R)
  : world :=
  {| compiled_model := fun _ _ => Ok outputs; random_sample := rnd |}.

(** ** Softmax in rounded arithmetic

    The operations of [softmax] above are exact on real values.  The
    notebook computes in floating point: the subtraction, [np.exp], the
    additions of the sum and the division each round their result.  An
    [arith] gives the four rounded operations; [softmax_fl] is [softmax]
    computed with them, the sum being taken by a function [sum] that
    stands for the order in which [ndarray.sum] adds the entries. *)
Record arith : Type := {
  r_sub : float -> float -> float;
  r_exp : float -> float;
  r_add : float -> float -> float;
  r_div : float -> float -> float
}.

Definition exact_arith : arith :=
  {| r_sub := fsub; r_exp := fexp; r_add := fadd; r_div := fdiv |}.

Definition softmax_fl (A : arith) (sum : list float -> float)
  (x : list float) : result (list float) :=
  m <- np_max x ;;
  let e_x := map (fun v => r_exp A (r_sub A v m)) x in
  let summation := sum e_x in
  Ok (map (fun e => r_div A e summation) e_x).

(** [sums_to A l s]: [s] is obtained from the entries of [l] by rounded
    additions, in some order and with some bracketing.  Every way in
    which a reduction may add up an array (one accumulator, several
    accumulators, pairwise blocks) is of this form; an accumulator that
    starts from zero adds its first entry exactly. *)
Inductive sums_to (A : arith) : list float -> float -> Prop :=
| sums_one (a : float) : sums_to A [a] a
| sums_app (l1 l2 : list float) (s1 s2 : float) :
    sums_to A l1 s1 -> sums_to A l2 s2 ->
    sums_to A (l1 ++ l2) (r_add A s1 s2)
| sums_perm (l l' : list float) (s : float) :
    Permutation l l' -> sums_to A l s -> sums_to A l' s.

(** The entries added one after the other, from the left. *)
Definition sequential_sum (A : arith) (l : list float) : float :=
  match l with
  | [] => Fin 0
  | a :: l' => fold_left (r_add A) l' a
  end.

(** What rounding to nearest guarantees of the operations that
    [softmax] performs, with unit roundoff [u] ([2^-53] in float64),
    underflow unit [eta] ([2^-1075]) and largest finite value [omega]:
    - [x - x] is zero, a difference that is not positive in the reals is
      not positive once rounded (it may overflow to minus infinity), and
      minus infinity less a finite value is minus infinity;
    - [np.exp] is 0 at minus infinity, 1 at 0 and between 0 and 1 on the
      values that are not positive;
    - a sum of non-negative values that does not exceed [omega] has a
      relative error of at most [u] (a sum that underflows is exact);
    - a quotient of a value of [[0, 1]] by a value of at least one half
      is non-negative and has a relative error of at most [u], or an
      absolute error of at most [eta] when it underflows; zero divided by
      a positive value is zero. *)
Record standard_model (A : arith) (u eta omega : R) : Prop := {
  sm_u : 0 <= u;
  sm_eta : 0 <= eta <= u;
  sm_omega : 5 <= omega;
  sm_sub_self : forall a, r_sub A (Fin a) (Fin a) = Fin 0;
  sm_sub_le : forall a b, a <= b ->
    r_sub A (Fin a) (Fin b) = NInf \/
    exists d, r_sub A (Fin a) (Fin b) = Fin d /\ d <= 0;
  sm_sub_ninf : forall b, r_sub A NInf (Fin b) = NInf;
  sm_exp_ninf : r_exp A NInf = Fin 0;
  sm_exp_0 : r_exp A (Fin 0) = Fin 1;
  sm_exp_neg : forall d, d <= 0 ->
    exists e, r_exp A (Fin d) = Fin e /\ 0 <= e <= 1;
  sm_add : forall a b, 0 <= a -> 0 <= b -> a + b <= omega ->
    exists s, r_add A (Fin a) (Fin b) = Fin s /\
              (a + b) * (1 - u) <= s <= (a + b) * (1 + u);
  sm_div : forall e s, 0 <= e <= 1 -> / 2 <= s ->
    exists q, r_div A (Fin e) (Fin s) = Fin q /\ 0 <= q /\
              e / s * (1 - u) - eta <= q <= e / s * (1 + u) + eta;
  sm_div_0 : forall s, 0 < s -> r_div A (Fin 0) (Fin s) = Fin 0
}.

(** An arithmetic that is exact but for the division, whose result is
    multiplied by [c]. *)
Definition fscale (c : R) (a : float) : float :=
  match a with
  | Fin x => Fin (x * c)
  | _ => a
  end.

Definition lossy_arith (c : R) : arith :=
  {| r_sub := fsub; r_exp := fexp; r_add := fadd;
     r_div := fun a b => fscale c (fdiv a b) |}.

(** * Properties *)

(** ** The order of the floats *)

Lemma Rltb_true (x y : R) : Rltb x y = true <-> x < y.
Proof.
  unfold Rltb. destruct (Rlt_dec x y); split; intros; auto; discriminate.
Qed.

Lemma Rltb_false (x y : R) : Rltb x y = false <-> y <= x.
Proof.
  unfold Rltb.
  destruct (Rlt_dec x y); split; intros; auto; try discriminate; lra.
Qed.

Ltac float_cases :=
  intros;
  repeat match goal with
         | a : float |- _ => destruct a
         end;
  simpl in *; rewrite ?Rltb_true, ?Rltb_false in *;
  try solve [intuition (try congruence; try discriminate; try lra; auto)].

Lemma fle_refl (a : float) : a <> NaN -> fle a a.
Proof. float_cases. Qed.

Lemma fle_trans (a b c : float) : fle a b -> fle b c -> fle a c.
Proof. float_cases. Qed.

Lemma fle_antisym (a b : float) : fle a b -> fle b a -> a = b.
Proof. float_cases. f_equal. lra. Qed.

Lemma fle_total (a b : float) : a <> NaN -> b <> NaN -> fle a b \/ fle b a.
Proof. float_cases. Qed.



Lemma fltb_false_fle (a b : float) :
  a <> NaN -> b <> NaN -> fltb a b = false <-> fle b a.
Proof. float_cases. Qed.

Lemma fltb_true_not_fle (a b : float) : fltb a b = true -> ~ fle b a.
Proof. float_cases. Qed.

Lemma fltb_irrefl (a : float) : fltb a a = false.
Proof. float_cases. Qed.

Lemma fleb_true_fle (a b : float) : fleb a b = true <-> fle a b.
Proof.
  destruct a, b; simpl; try tauto; try (split; [discriminate | tauto]).
  rewrite negb_true_iff, Rltb_false. tauto.
Qed.

Lemma np_leb_fle (a b : float) :
  a <> NaN -> b <> NaN -> np_leb a b = true <-> fle a b.
Proof.
  destruct a, b; simpl; try tauto; try (intros; split; [discriminate | tauto]).
  intros _ _. rewrite negb_true_iff, Rltb_false. tauto.
Qed.

Lemma fneg_involutive (a : float) : fneg (fneg a) = a.
Proof. destruct a; simpl; auto. f_equal. lra. Qed.

Lemma fneg_not_nan (a : float) : a <> NaN -> fneg a <> NaN.
Proof. destruct a; simpl; congruence. Qed.

Lemma fneg_fle (a b : float) : fle a b -> fle (fneg b) (fneg a).
Proof. float_cases. Qed.

(** ** Evaluation on concrete rows

    The comparisons of reals do not compute; on numerals they are
    settled by [lra], which is enough to run the functions on a concrete
    row. *)

Ltac Rltb_eval :=
  repeat match goal with
         | |- context [Rltb ?x ?y] =>
             first [ replace (Rltb x y) with true
                       by (symmetry; apply Rltb_true; lra)
                   | replace (Rltb x y) with false
                       by (symmetry; apply Rltb_false; lra) ]
         end.

Ltac float_eval :=
  repeat (progress (unfold fmin, fmax, filled, np_min, np_max, bind;
                    simpl; Rltb_eval)).

Example np_sort_run :
  np_sort [Fin 2; NaN; Fin 1; NInf; Fin 3] =
  [NInf; Fin 1; Fin 2; Fin 3; NaN].
Proof. float_eval. reflexivity. Qed.

Example get_top_k_logits_run :
  get_top_k_logits [Fin 1; Fin 3; Fin 4; Fin 2] 2 =
  Ok [NInf; Fin 3; Fin 4; NInf].
Proof. unfold get_top_k_logits. float_eval. reflexivity. Qed.

(** A tie at the threshold: three entries survive [top_k = 2]. *)
Example get_top_k_logits_ties :
  get_top_k_logits [Fin 1; Fin 2; Fin 2; Fin 3] 2 =
  Ok [NInf; Fin 2; Fin 2; Fin 3].
Proof. unfold get_top_k_logits. float_eval. reflexivity. Qed.

(** [top_k] is clamped: 0 counts as 1, and 9 as the length of the row. *)
Example get_top_k_logits_clamped :
  get_top_k_logits [Fin 1; Fin 3; Fin 2] 0 = Ok [NInf; Fin 3; NInf] /\
  get_top_k_logits [Fin 1; Fin 3; Fin 2] 9 = Ok [Fin 1; Fin 3; Fin 2].
Proof. split; unfold get_top_k_logits; float_eval; reflexivity. Qed.

Example get_top_k_logits_empty : get_top_k_logits [] 20 = Err ValueError.
Proof. reflexivity. Qed.

Example process_logits_run :
  process_logits [5; 9]%Z [Fin 1; Fin 2; Fin 3] 2 3 =
    Ok [Fin 1; Fin 2; NInf] /\
  process_logits [5; 9]%Z [Fin 1; Fin 2; Fin 3] (-1) 3 =
    Ok [Fin 1; Fin 2; NInf] /\
  process_logits [5; 9]%Z [Fin 1; Fin 2; Fin 3] 3 3 = Err IndexError /\
  process_logits [5; 9]%Z [Fin 1; Fin 2; Fin 3] 3 2 =
    Ok [Fin 1; Fin 2; Fin 3].
Proof. repeat split; reflexivity. Qed.

Example get_top_k_logits_st_run :
  get_top_k_logits_st [[Fin 1; Fin 3; Fin 2]] 0%nat 2 =
    Ok ([[Fin 1; Fin 3; Fin 2]; [NInf; Fin 3; Fin 2]], 1%nat) /\
  get_top_k_logits_st [[Fin 1; Fin 3; Fin 2]] 0%nat 3 =
    Ok ([[Fin 1; Fin 3; Fin 2]], 0%nat).
Proof.
  split; unfold get_top_k_logits_st, alloc, load; float_eval; reflexivity.
Qed.

Example softmax_run : softmax [Fin 0; NInf] = Ok [Fin 1; Fin 0].
Proof.
  unfold softmax, np_sum, fsub. float_eval.
  rewrite Rplus_opp_r, exp_0. float_eval.
  repeat f_equal; unfold Rdiv; field.
Qed.

Example softmax_empty : softmax [] = Err ValueError.
Proof. reflexivity. Qed.

Example choice_run :
  choice [Fin (1 / 4); Fin (3 / 4)] (1 / 5) = Ok 0%Z /\
  choice [Fin (1 / 4); Fin (3 / 4)] (1 / 4) = Ok 1%Z /\
  choice [Fin (1 / 4); NaN] (1 / 5) = Err ValueError.
Proof.
  assert (Htol : forall x, x = 0 -> Rltb atol (Rabs x) = false).
  { intros x ->. rewrite Rabs_R0. apply Rltb_false, sqrt_pos. }
  repeat split; unfold choice, np_sum, np_cumsum, fsub; simpl;
    try reflexivity.
  - rewrite Htol by lra. float_eval. reflexivity.
  - rewrite Htol by lra. float_eval. reflexivity.
Qed.

(** ** Sorting *)

Lemma np_insert_perm (a : float) (l : list float) :
  Permutation (np_insert a l) (a :: l).
Proof.
  induction l as [|b l IH]; simpl; auto.
  destruct (np_leb a b); auto.
  rewrite IH. apply perm_swap.
Qed.

Lemma np_sort_perm (l : list float) : Permutation (np_sort l) l.
Proof.
  induction l as [|a l IH]; simpl; auto.
  rewrite np_insert_perm. auto.
Qed.

Lemma no_nan_perm (l l' : list float) :
  Permutation l l' -> no_nan l -> no_nan l'.
Proof. intros HP H. unfold no_nan in *. rewrite <- HP. exact H. Qed.

Lemma np_insert_sorted (a : float) (l : list float) :
  a <> NaN -> no_nan l ->
  StronglySorted fle l -> StronglySorted fle (np_insert a l).
Proof.
  intros Ha Hl HS. induction HS as [|b l HS IH Hb]; simpl.
  - repeat constructor.
  - inversion Hl as [|? ? Hbn Hl']; subst.
    destruct (np_leb a b) eqn:E.
    + apply np_leb_fle in E; auto.
      constructor; [constructor; auto|].
      constructor; auto.
      eapply Forall_impl; [|exact Hb]. intros c Hc. eapply fle_trans; eauto.
    + constructor; auto.
      assert (Hba : fle b a).
      { destruct (fle_total a b Ha Hbn) as [H|H]; auto.
        apply np_leb_fle in H; auto. congruence. }
      rewrite np_insert_perm. constructor; auto.
Qed.

Lemma np_sort_sorted (l : list float) :
  no_nan l -> StronglySorted fle (np_sort l).
Proof.
  induction 1 as [|a l Ha Hl IH]; simpl.
  - constructor.
  - apply np_insert_sorted; auto.
    eapply no_nan_perm; [apply Permutation_sym, np_sort_perm | exact Hl].
Qed.

Lemma map_fneg_no_nan (l : list float) : no_nan l -> no_nan (map fneg l).
Proof.
  unfold no_nan. intros H. apply Forall_map.
  eapply Forall_impl; [|exact H]. intros a. apply fneg_not_nan.
Qed.

Lemma sorted_desc_perm (l : list float) : Permutation (sorted_desc l) l.
Proof.
  unfold sorted_desc.
  rewrite np_sort_perm, map_map.
  erewrite map_ext; [rewrite map_id; reflexivity|].
  intros a. apply fneg_involutive.
Qed.

Lemma map_fneg_sorted (l : list float) :
  StronglySorted fle l -> StronglySorted (fun a b => fle b a) (map fneg l).
Proof.
  induction 1 as [|a l HS IH Ha]; simpl; constructor; auto.
  apply Forall_map. eapply Forall_impl; [|exact Ha].
  intros b. apply fneg_fle.
Qed.

Lemma sorted_desc_sorted (l : list float) :
  no_nan l -> StronglySorted (fun a b => fle b a) (sorted_desc l).
Proof.
  intros H. unfold sorted_desc.
  apply map_fneg_sorted, np_sort_sorted, map_fneg_no_nan, H.
Qed.

Lemma sorted_app_inv {A : Type} (R : A -> A -> Prop) (l1 l2 : list A) :
  StronglySorted R (l1 ++ l2) ->
  forall x y, In x l1 -> In y l2 -> R x y.
Proof.
  induction l1 as [|a l1 IH]; simpl; intros HS x y Hx Hy; [tauto|].
  inversion HS as [|? ? HS' Ha]; subst.
  destruct Hx as [->|Hx]; [|eauto].
  rewrite Forall_forall in Ha. apply Ha, in_or_app. auto.
Qed.

(** ** The reductions *)

Lemma fmin_spec (a b : float) :
  a <> NaN -> b <> NaN ->
  fmin a b <> NaN /\ (fmin a b = a \/ fmin a b = b) /\
  fle (fmin a b) a /\ fle (fmin a b) b.
Proof.
  intros Ha Hb. unfold fmin.
  destruct a as [| | |x], b as [| | |y]; simpl; try congruence;
    try (repeat split; simpl; auto; try congruence; lra).
  destruct (Rltb y x) eqn:E;
    [apply Rltb_true in E | apply Rltb_false in E];
    repeat split; simpl; auto; try congruence; lra.
Qed.

Lemma fold_fmin_spec (l : list float) (a : float) :
  a <> NaN -> no_nan l ->
  let m := fold_left fmin l a in
  In m (a :: l) /\ forall x, In x (a :: l) -> fle m x.
Proof.
  revert a. induction l as [|b l IH]; intros a Ha Hl; simpl.
  - split; auto. intros x [<-|[]]. apply fle_refl, Ha.
  - inversion Hl as [|? ? Hb Hl']; subst.
    destruct (fmin_spec a b Ha Hb) as (Hn & Hor & Hma & Hmb).
    destruct (IH (fmin a b) Hn Hl') as [Hin Hle].
    simpl in Hin, Hle. split.
    + destruct Hin as [Hin|Hin]; [|auto].
      rewrite <- Hin. destruct Hor as [-> | ->]; auto.
    + intros x [<-|[<-|Hx]].
      * eapply fle_trans; [apply Hle; auto | exact Hma].
      * eapply fle_trans; [apply Hle; auto | exact Hmb].
      * apply Hle; auto.
Qed.

Lemma np_min_spec (l : list float) :
  l <> [] -> no_nan l ->
  exists m, np_min l = Ok m /\ In m l /\ forall x, In x l -> fle m x.
Proof.
  destruct l as [|a l]; [congruence|]. intros _ H.
  inversion H; subst. exists (fold_left fmin l a). split; [reflexivity|].
  apply fold_fmin_spec; auto.
Qed.

(** ** Counting *)

Lemma count_perm (p : float -> bool) (l l' : list float) :
  Permutation l l' -> count p l = count p l'.
Proof.
  unfold count. induction 1; simpl; auto.
  - destruct (p x); simpl; auto.
  - destruct (p x), (p y); simpl; auto.
  - congruence.
Qed.

Lemma count_app (p : float -> bool) (l1 l2 : list float) :
  count p (l1 ++ l2) = (count p l1 + count p l2)%nat.
Proof. unfold count. rewrite filter_app, length_app. reflexivity. Qed.

Lemma count_all (p : float -> bool) (l : list float) :
  (forall x, In x l -> p x = true) -> count p l = length l.
Proof.
  unfold count. induction l as [|a l IH]; simpl; intros H; auto.
  rewrite (H a) by auto. simpl. f_equal. apply IH. auto.
Qed.

Lemma count_none (p : float -> bool) (l : list float) :
  (forall x, In x l -> p x = false) -> count p l = O.
Proof.
  unfold count. induction l as [|a l IH]; simpl; intros H; auto.
  rewrite (H a) by auto. apply IH. auto.
Qed.


Lemma count_lt_length (p : float -> bool) (l : list float) (x : float) :
  In x l -> p x = false -> (count p l < length l)%nat.
Proof.
  induction l as [|a l IH]; simpl; intros Hin Hp; [tauto|].
  unfold count in *. simpl. destruct Hin as [->|Hin].
  - rewrite Hp. pose proof (filter_length_le p l). lia.
  - specialize (IH Hin Hp). destruct (p a); simpl; lia.
Qed.

Lemma count_ext_in (p q : float -> bool) (l : list float) :
  (forall x, In x l -> p x = q x) -> count p l = count q l.
Proof. intros H. unfold count. f_equal. apply filter_ext_in, H. Qed.

(** ** Top-K truncation *)

Lemma filled_map (f : float -> bool) (v : float) (l : list float) :
  filled l (map f l) v = map (fun s => if f s then v else s) l.
Proof.
  unfold filled. induction l as [|a l IH]; simpl; auto. f_equal. exact IH.
Qed.

Lemma clamp_top_k_range (top_k : Z) (scores : list float) :
  scores <> [] ->
  (1 <= clamp_top_k top_k scores <= Z.of_nat (length scores))%Z.
Proof.
  intros H. unfold clamp_top_k.
  destruct scores; [congruence|]. simpl length. lia.
Qed.

(** The threshold that [get_top_k_logits] computes, and its result. *)
Lemma get_top_k_logits_threshold (scores : list float) (top_k : Z) :
  scores <> [] -> no_nan scores ->
  exists t,
    is_kth_largest scores (Z.to_nat (clamp_top_k top_k scores)) t /\
    get_top_k_logits scores top_k = Ok (truncate_below t scores).
Proof.
  intros Hne Hnn.
  pose proof (clamp_top_k_range top_k scores Hne) as Hk.
  set (k := Z.to_nat (clamp_top_k top_k scores)).
  assert (Hk1 : (1 <= k <= length scores)%nat) by (unfold k; lia).
  pose proof (sorted_desc_perm scores) as HP.
  pose proof (sorted_desc_sorted scores Hnn) as HS.
  set (d := sorted_desc scores) in *.
  assert (Hlen : length d = length scores) by (apply Permutation_length, HP).
  assert (Hd : no_nan d)
    by (eapply no_nan_perm; [apply Permutation_sym, HP | exact Hnn]).
  rewrite <- (firstn_skipn k d) in HS, HP, Hd.
  assert (Htop_len : length (firstn k d) = k)
    by (rewrite length_firstn; lia).
  assert (Htop_ne : firstn k d <> [])
    by (intros E; rewrite E in Htop_len; simpl in Htop_len; lia).
  assert (Htop_nn : no_nan (firstn k d)).
  { unfold no_nan in *. apply Forall_app in Hd. tauto. }
  destruct (np_min_spec _ Htop_ne Htop_nn) as (t & Hmin & Hin & Hle).
  exists t. split.
  - assert (Ht : t <> NaN).
    { unfold no_nan in Htop_nn. rewrite Forall_forall in Htop_nn. auto. }
    repeat split.
    + eapply Permutation_in; [exact HP|]. apply in_or_app. auto.
    + rewrite <- (count_perm _ _ _ HP), count_app.
      rewrite (count_all _ (firstn k d)).
      * fold k. lia.
      * intros x Hx. apply fleb_true_fle. auto.
    + rewrite <- (count_perm _ _ _ HP), count_app.
      rewrite (count_none _ (skipn k d)).
      * pose proof (count_lt_length (fun s => fltb t s) _ t Hin
                      (fltb_irrefl t)).
        fold k. lia.
      * intros y Hy.
        destruct (fltb t y) eqn:E; auto.
        apply fltb_true_not_fle in E. exfalso. apply E.
        apply (sorted_app_inv _ _ _ HS t y Hin Hy).
  - unfold get_top_k_logits. fold (clamp_top_k top_k scores). fold k.
    rewrite <- firstn_map. fold (sorted_desc scores). fold d.
    rewrite Hmin. simpl. rewrite filled_map. reflexivity.
Qed.

Lemma retained_count (t : float) (scores : list float) :
  t <> NaN -> no_nan scores ->
  retained t scores = count (fun s => fleb t s) scores.
Proof.
  intros Ht Hnn. unfold retained. apply count_ext_in.
  intros x Hx. unfold no_nan in Hnn. rewrite Forall_forall in Hnn.
  specialize (Hnn x Hx). destruct t, x; simpl; congruence.
Qed.

Lemma is_kth_largest_unique (scores : list float) (k : nat) (t t' : float) :
  no_nan scores ->
  is_kth_largest scores k t -> is_kth_largest scores k t' -> t = t'.
Proof.
  intros Hnn (Hin & Hge & Hgt) (Hin' & Hge' & Hgt').
  unfold no_nan in Hnn. rewrite Forall_forall in Hnn.
  assert (Hmono : forall a b, In a scores -> In b scores ->
            (count (fun s => fltb a s) scores < k)%nat ->
            (k <= count (fun s => fleb b s) scores)%nat -> fle b a).
  { intros a b Ha Hb Hlt Hle.
    destruct (fle_total a b (Hnn a Ha) (Hnn b Hb)) as [Hab|Hba]; auto.
    destruct (fltb a b) eqn:E.
    - exfalso.
      assert (count (fun s => fleb b s) scores
              <= count (fun s => fltb a s) scores)%nat; [|lia].
      unfold count. clear -E Hab Hnn.
      induction scores as [|c l IH]; simpl; auto.
      assert (IH' : (length (filter (fun s => fleb b s) l)
                     <= length (filter (fun s => fltb a s) l))%nat)
        by (apply IH; intros; apply Hnn; simpl; auto).
      destruct (fleb b c) eqn:E1; simpl.
      + assert (E2 : fltb a c = true).
        { apply fleb_true_fle in E1.
          destruct a, b, c; simpl in *; try tauto; try discriminate.
          apply Rltb_true in E. apply Rltb_true. lra. }
        rewrite E2. simpl. lia.
      + destruct (fltb a c); simpl; lia.
    - apply fltb_false_fle in E; auto. }
  apply fle_antisym; apply Hmono; auto.
Qed.

(** C3. On a non-empty row of scores without NaN, [get_top_k_logits]
    clamps [top_k] to the range from 1 to the length [V] of the row,
    takes as threshold the [top_k]-th largest score, replaces every
    entry strictly below the threshold by minus infinity and leaves every
    entry at or above it unchanged; the entries tied with the threshold
    are kept, and at least [top_k] entries are kept. *)
Theorem get_top_k_logits_spec (scores : list float) (top_k : Z) :
  scores <> [] -> no_nan scores ->
  let V := Z.of_nat (length scores) in
  let k := clamp_top_k top_k scores in
  ((top_k < 1 -> k = 1) /\ (1 <= top_k <= V -> k = top_k) /\
   (V < top_k -> k = V))%Z /\
  exists t out,
    is_kth_largest scores (Z.to_nat k) t /\
    get_top_k_logits scores top_k = Ok out /\
    out = truncate_below t scores /\
    length out = length scores /\
    (forall i s, nth_error scores i = Some s ->
       (fltb s t = true -> nth_error out i = Some NInf) /\
       (fle t s -> nth_error out i = Some s)) /\
    (Z.to_nat k <= retained t scores)%nat.
Proof.
  intros Hne Hnn V k.
  pose proof (clamp_top_k_range top_k scores Hne) as Hk.
  split.
  - unfold k, clamp_top_k, V in *. lia.
  - destruct (get_top_k_logits_threshold scores top_k Hne Hnn)
      as (t & Hkth & Hrun).
    exists t, (truncate_below t scores).
    assert (Ht : t <> NaN).
    { destruct Hkth as (Hin & _). unfold no_nan in Hnn.
      rewrite Forall_forall in Hnn. auto. }
    split; [exact Hkth|]. split; [exact Hrun|]. split; [reflexivity|].
    split; [apply length_map|]. split.
    + intros i s H. unfold truncate_below.
      rewrite nth_error_map, H. simpl. split.
      * intros E. rewrite E. reflexivity.
      * intros Hle. destruct (fltb s t) eqn:E; auto.
        apply fltb_true_not_fle in E. tauto.
    + rewrite retained_count by auto. apply Hkth.
Qed.

Lemma get_top_k_logits_spec_witness :
  exists t out,
    is_kth_largest [Fin 1; Fin 3; Fin 3; Fin 2] 2 t /\
    get_top_k_logits [Fin 1; Fin 3; Fin 3; Fin 2] 2 = Ok out /\
    (2 <= retained t [Fin 1; Fin 3; Fin 3; Fin 2])%nat.
Proof.
  destruct (get_top_k_logits_spec [Fin 1; Fin 3; Fin 3; Fin 2] 2)
    as (_ & t & out & H1 & H2 & _ & _ & _ & H3).
  - discriminate.
  - repeat constructor; discriminate.
  - exists t, out. repeat split; auto; apply H1.
Defined.

(** ** Minimum-length suppression *)

Lemma set_nth_length {A : Type} (l : list A) (n : nat) (a : A) :
  length (set_nth l n a) = length l.
Proof.
  revert n. induction l as [|b l IH]; intros [|n]; simpl; auto.
Qed.

Lemma set_nth_same {A : Type} (l : list A) (n : nat) (a : A) :
  (n < length l)%nat -> nth_error (set_nth l n a) n = Some a.
Proof.
  revert n. induction l as [|b l IH]; intros [|n]; simpl; intros H;
    try lia; auto.
  apply IH. lia.
Qed.

Lemma set_nth_other {A : Type} (l : list A) (n i : nat) (a : A) :
  i <> n -> nth_error (set_nth l n a) i = nth_error l i.
Proof.
  revert n i. induction l as [|b l IH]; intros [|n] [|i]; simpl; intros H;
    auto; try congruence.
Qed.

Lemma py_setitem_in_range {A : Type} (l : list A) (i : Z) (a : A) :
  (0 <= i < Z.of_nat (length l))%Z ->
  py_setitem l i a = Ok (set_nth l (Z.to_nat i) a).
Proof.
  intros H. unfold py_setitem.
  destruct (Z.ltb_spec i 0); [lia|].
  destruct (Z.ltb_spec i 0); [lia|].
  destruct (Z.leb_spec (Z.of_nat (length l)) i); [lia|]. reflexivity.
Qed.

(** C6. [process_logits] sets the score at index [eos_token_id] to minus
    infinity exactly when the current length is below [min_length], and
    returns the scores unchanged otherwise; with the default
    [min_length = 0] the scores are always returned unchanged. *)
Theorem process_logits_spec (input_ids : list Z) (scores : list float)
  (eos_token_id min_length : Z) :
  let cur_length := Z.of_nat (length input_ids) in
  ((cur_length < min_length)%Z ->
   (0 <= eos_token_id < Z.of_nat (length scores))%Z ->
   exists out,
     process_logits input_ids scores eos_token_id min_length = Ok out /\
     length out = length scores /\
     nth_error out (Z.to_nat eos_token_id) = Some NInf /\
     forall i, i <> Z.to_nat eos_token_id ->
       nth_error out i = nth_error scores i) /\
  ((min_length <= cur_length)%Z ->
   process_logits input_ids scores eos_token_id min_length = Ok scores) /\
  process_logits input_ids scores eos_token_id default_min_length = Ok scores.
Proof.
  intros cur_length. unfold process_logits. fold cur_length. repeat split.
  - intros Hlt Heos.
    destruct (Z.ltb_spec cur_length min_length); [|lia].
    rewrite py_setitem_in_range by auto.
    eexists. split; [reflexivity|]. split; [apply set_nth_length|]. split.
    + apply set_nth_same. lia.
    + intros i Hi. apply set_nth_other, Hi.
  - intros Hge. destruct (Z.ltb_spec cur_length min_length); [lia|].
    reflexivity.
  - unfold default_min_length.
    destruct (Z.ltb_spec cur_length 0); [unfold cur_length in *; lia|].
    reflexivity.
Qed.

Lemma process_logits_spec_witness :
  (exists out,
     process_logits [5%Z] [Fin 1; Fin 2] 1 3 = Ok out /\
     nth_error out 1 = Some NInf /\ nth_error out 0 = Some (Fin 1)) /\
  process_logits [5%Z; 6%Z] [Fin 1; Fin 2] 1 2 = Ok [Fin 1; Fin 2].
Proof.
  destruct (process_logits_spec [5%Z] [Fin 1; Fin 2] 1 3) as (H1 & _ & _).
  destruct (process_logits_spec [5%Z; 6%Z] [Fin 1; Fin 2] 1 2)
    as (_ & H2 & _).
  split.
  - assert (Hlt : (Z.of_nat (length [5%Z]) < 3)%Z) by (simpl; lia).
    assert (Hr : (0 <= 1 < Z.of_nat (length [Fin 1; Fin 2]))%Z)
      by (simpl; lia).
    destruct (H1 Hlt Hr) as (out & Hrun & _ & Hn & Ho).
    exists out. repeat split; auto; apply (Ho O); simpl; lia.
  - apply H2. simpl. lia.
Defined.

(** ** Sums of finite values *)

Lemma fold_fadd_Fin (rs : list R) (a : R) :
  fold_left fadd (map Fin rs) (Fin a) = Fin (a + Rsum rs).
Proof.
  revert a. induction rs as [|r rs IH]; intros a; simpl.
  - f_equal. lra.
  - rewrite IH. f_equal. lra.
Qed.

Lemma np_sum_Fin (rs : list R) : np_sum (map Fin rs) = Fin (Rsum rs).
Proof. unfold np_sum. rewrite fold_fadd_Fin. f_equal. lra. Qed.

Lemma Rsum_nonneg (rs : list R) : Forall (fun r => 0 <= r) rs -> 0 <= Rsum rs.
Proof. induction 1; simpl; lra. Qed.

Lemma Rsum_In_le (rs : list R) (r : R) :
  Forall (fun r => 0 <= r) rs -> In r rs -> r <= Rsum rs.
Proof.
  induction 1 as [|a rs Ha Hrs IH]; simpl; [tauto|].
  pose proof (Rsum_nonneg rs Hrs).
  intros [->|Hin]; [lra|]. specialize (IH Hin). lra.
Qed.

Lemma Rsum_map_div (rs : list R) (s : R) :
  Rsum (map (fun r => r / s) rs) = Rsum rs / s.
Proof.
  induction rs as [|r rs IH]; simpl.
  - unfold Rdiv. lra.
  - rewrite IH. unfold Rdiv. lra.
Qed.

Lemma is_prob_Fin (p : list float) :
  Forall is_prob p ->
  exists ps, p = map Fin ps /\ Forall (fun r => 0 <= r) ps.
Proof.
  induction 1 as [|a p Ha Hp (ps & -> & Hps)].
  - exists []. split; auto.
  - destruct a as [| | |r]; simpl in Ha; try tauto.
    exists (r :: ps). split; auto.
Qed.

(** ** Softmax *)

Lemma fmax_spec (a b : float) :
  a <> NaN -> b <> NaN ->
  fmax a b <> NaN /\ (fmax a b = a \/ fmax a b = b) /\
  fle a (fmax a b) /\ fle b (fmax a b).
Proof.
  intros Ha Hb. unfold fmax.
  destruct a as [| | |x], b as [| | |y]; simpl; try congruence;
    try (repeat split; simpl; auto; try congruence; lra).
  destruct (Rltb x y) eqn:E;
    [apply Rltb_true in E | apply Rltb_false in E];
    repeat split; simpl; auto; try congruence; lra.
Qed.

Lemma fold_fmax_spec (l : list float) (a : float) :
  a <> NaN -> no_nan l ->
  let m := fold_left fmax l a in
  In m (a :: l) /\ forall x, In x (a :: l) -> fle x m.
Proof.
  revert a. induction l as [|b l IH]; intros a Ha Hl; simpl.
  - split; auto. intros x [<-|[]]. apply fle_refl, Ha.
  - inversion Hl as [|? ? Hb Hl']; subst.
    destruct (fmax_spec a b Ha Hb) as (Hn & Hor & Hma & Hmb).
    destruct (IH (fmax a b) Hn Hl') as [Hin Hle].
    simpl in Hin, Hle. split.
    + destruct Hin as [Hin|Hin]; [|auto].
      rewrite <- Hin. destruct Hor as [-> | ->]; auto.
    + intros x [<-|[<-|Hx]].
      * eapply fle_trans; [exact Hma | apply Hle; auto].
      * eapply fle_trans; [exact Hmb | apply Hle; auto].
      * apply Hle; auto.
Qed.

Lemma np_max_spec (l : list float) :
  l <> [] -> no_nan l ->
  exists m, np_max l = Ok m /\ In m l /\ forall x, In x l -> fle x m.
Proof.
  destruct l as [|a l]; [congruence|]. intros _ H.
  inversion H; subst. exists (fold_left fmax l a). split; [reflexivity|].
  apply fold_fmax_spec; auto.
Qed.

Lemma logits_no_nan (x : list float) : Forall is_logit x -> no_nan x.
Proof.
  intros H. eapply Forall_impl; [|exact H].
  intros a Ha. destruct a; simpl in Ha; congruence.
Qed.

Lemma logit_row_nonempty (x : list float) : logit_row x -> x <> [].
Proof. intros [_ H] ->. inversion H. Qed.

Lemma np_max_logit_row (x : list float) :
  logit_row x ->
  exists mx, np_max x = Ok (Fin mx) /\ In (Fin mx) x /\
             forall v, In v x -> fle v (Fin mx).
Proof.
  intros Hrow. pose proof (logit_row_nonempty x Hrow) as Hne.
  destruct Hrow as [Hlog Hfin].
  destruct (np_max_spec x Hne (logits_no_nan x Hlog)) as (m & Hm & Hin & Hle).
  rewrite Forall_forall in Hlog. apply Exists_exists in Hfin.
  destruct Hfin as (f & Hf & Hff).
  pose proof (Hle f Hf) as Hfm. pose proof (Hlog m Hin) as Hml.
  destruct m as [| | |mx]; simpl in Hml; try tauto.
  - destruct f; simpl in *; tauto.
  - exists mx. auto.
Qed.

Lemma exp_row (x : list float) (mx : R) :
  Forall is_logit x ->
  exists es,
    map (fun v => fexp (fsub v (Fin mx))) x = map Fin es /\
    Forall (fun r => 0 <= r) es /\
    (forall i, nth_error x i = Some NInf -> nth_error es i = Some 0) /\
    (forall i r, nth_error x i = Some (Fin r) ->
       nth_error es i = Some (exp (r - mx))).
Proof.
  induction 1 as [|a x Ha Hx (es & Heq & Hpos & Hinf & Hfin)].
  - exists []. repeat split; auto; intros [|i]; simpl; discriminate.
  - destruct a as [| | |r]; simpl in Ha; try tauto.
    + exists (0 :: es). simpl. rewrite Heq. repeat split; auto.
      * constructor; auto. lra.
      * intros [|i]; simpl; auto.
      * intros [|i] r; simpl; auto. discriminate.
    + exists (exp (r - mx) :: es). simpl. rewrite Heq. repeat split; auto.
      * constructor; auto. left. apply exp_pos.
      * intros [|i]; simpl; auto. discriminate.
      * intros [|i] r'; simpl; auto. intros E. inversion E. reflexivity.
Qed.

Lemma fdiv_Fin_pos (e s : R) : 0 < s -> fdiv (Fin e) (Fin s) = Fin (e / s).
Proof.
  intros Hs. simpl.
  destruct (Rltb s 0) eqn:E1; auto.
  destruct (Rltb 0 s) eqn:E2; auto.
  apply Rltb_false in E2. lra.
Qed.

Lemma map_fdiv_Fin (es : list R) (s : R) :
  0 < s ->
  map (fun e => fdiv e (Fin s)) (map Fin es) =
  map Fin (map (fun r => r / s) es).
Proof.
  intros Hs. rewrite !map_map. apply map_ext.
  intros e. apply fdiv_Fin_pos, Hs.
Qed.

(** Softmax of a row of logits with one real score at least. *)
Lemma softmax_logit_row (x : list float) :
  logit_row x ->
  exists ps,
    softmax x = Ok (map Fin ps) /\
    length ps = length x /\
    Forall (fun r => 0 <= r) ps /\
    Rsum ps = 1 /\
    (forall i, nth_error x i = Some NInf -> nth_error ps i = Some 0) /\
    (forall i r, nth_error x i = Some (Fin r) ->
       exists q, nth_error ps i = Some q /\ 0 < q).
Proof.
  intros Hrow.
  destruct (np_max_logit_row x Hrow) as (mx & Hmax & Hin & _).
  destruct Hrow as [Hlog _].
  destruct (exp_row x mx Hlog) as (es & Heq & Hpos & Hinf & Hfin).
  assert (Hs : 1 <= Rsum es).
  { apply In_nth_error in Hin. destruct Hin as [i Hi].
    apply Hfin in Hi. apply nth_error_In in Hi.
    replace (mx - mx) with 0 in Hi by lra. rewrite exp_0 in Hi.
    apply Rsum_In_le; auto. }
  exists (map (fun r => r / Rsum es) es).
  split.
  { unfold softmax. rewrite Hmax. simpl. rewrite Heq, np_sum_Fin.
    rewrite map_fdiv_Fin by lra. reflexivity. }
  split.
  { rewrite length_map. apply (f_equal (@length _)) in Heq.
    rewrite !length_map in Heq. auto. }
  split.
  { apply Forall_map. eapply Forall_impl; [|exact Hpos].
    intros r Hr. simpl in Hr. apply Rmult_le_pos; [exact Hr|].
    left. apply Rinv_0_lt_compat. lra. }
  split.
  { rewrite Rsum_map_div. field. lra. }
  split.
  - intros i Hi. rewrite nth_error_map, (Hinf i Hi). simpl.
    f_equal. unfold Rdiv. lra.
  - intros i r Hi. rewrite nth_error_map, (Hfin i r Hi). simpl.
    eexists. split; [reflexivity|].
    apply Rmult_lt_0_compat; [apply exp_pos|].
    apply Rinv_0_lt_compat. lra.
Qed.

Lemma Forall_is_prob_Fin (ps : list R) :
  Forall (fun r => 0 <= r) ps -> Forall is_prob (map Fin ps).
Proof. intros H. apply Forall_map. exact H. Qed.

(** In exact arithmetic, on a row of real scores and minus infinities
    that holds one real score at least, [softmax] returns a row of the
    same length whose entries are finite and non-negative and sum to
    one, and every entry that was minus infinity is mapped to zero.  The
    rounded computation is the subject of [softmax_fl_distribution]. *)
Theorem softmax_distribution (x : list float) :
  logit_row x ->
  exists p,
    softmax x = Ok p /\
    length p = length x /\
    is_distribution p /\
    (forall i, nth_error x i = Some NInf -> nth_error p i = Some (Fin 0)).
Proof.
  intros Hrow.
  destruct (softmax_logit_row x Hrow)
    as (ps & Hrun & Hlen & Hpos & Hsum & Hinf & _).
  exists (map Fin ps). split; [exact Hrun|].
  split; [rewrite length_map; exact Hlen|].
  split.
  - split; [apply Forall_is_prob_Fin, Hpos|].
    rewrite np_sum_Fin, Hsum. reflexivity.
  - intros i Hi. rewrite nth_error_map, (Hinf i Hi). reflexivity.
Qed.

Lemma softmax_distribution_witness :
  exists p,
    softmax [Fin 2; NInf; Fin 1] = Ok p /\
    is_distribution p /\
    nth_error p 1 = Some (Fin 0).
Proof.
  destruct (softmax_distribution [Fin 2; NInf; Fin 1])
    as (p & Hrun & _ & Hd & Hinf).
  - split.
    + repeat constructor.
    + apply Exists_cons_hd. exact I.
  - exists p. repeat split; auto; apply Hd.
Defined.

(** C7, the claim as it is written, fails on a row that holds nothing
    but minus infinity: the maximum is minus infinity, the difference
    [-inf - -inf] is NaN, and so is every entry of the result. *)
Lemma softmax_all_minus_infinity :
  softmax [NInf; NInf] = Ok [NaN; NaN] /\
  ~ is_distribution [NaN; NaN] /\
  nth_error [NaN; NaN] 0 <> Some (Fin 0).
Proof.
  split; [reflexivity|]. split.
  - intros [H _]. inversion H as [|? ? Hp _]. exact Hp.
  - discriminate.
Qed.

(** ** The weighted draw *)

Lemma cumsum_last (ps : list R) (a : R) (d : float) :
  ps <> [] ->
  last (cumsum_from (Fin a) (map Fin ps)) d = Fin (a + Rsum ps).
Proof.
  revert a. induction ps as [|p ps IH]; intros a Hne; [congruence|].
  destruct ps as [|p' ps].
  - simpl. f_equal. lra.
  - change (last (cumsum_from (Fin a) (map Fin (p :: p' :: ps))) d)
      with (last (cumsum_from (Fin (a + p)) (map Fin (p' :: ps))) d).
    rewrite IH by discriminate. simpl. f_equal. lra.
Qed.

Lemma search_cumsum (ps : list R) (a u T : R) :
  0 < T -> Forall (fun r => 0 <= r) ps ->
  a <= u * T < a + Rsum ps ->
  exists i q,
    searchsorted_right
      (map (fun c => fdiv c (Fin T)) (cumsum_from (Fin a) (map Fin ps)))
      (Fin u) = i /\
    nth_error ps i = Some q /\ 0 < q.
Proof.
  intros HT Hpos. revert a.
  induction Hpos as [|p ps Hp Hps IH]; intros a Ha; simpl in Ha; [lra|].
  cbn [map cumsum_from fadd searchsorted_right].
  rewrite fdiv_Fin_pos by exact HT. cbn [fltb].
  assert (Hq : (a + p) / T * T = a + p) by (field; lra).
  destruct (Rltb u ((a + p) / T)) eqn:E.
  - apply Rltb_true in E. exists O, p. repeat split; auto. nra.
  - apply Rltb_false in E.
    destruct (IH (a + p)) as (i & q & Hi & Hn & Hq0); [nra|].
    exists (S i), q. rewrite Hi. auto.
Qed.

Lemma existsb_negative (ps : list R) :
  Forall (fun r => 0 <= r) ps ->
  existsb (fun x => fltb x (Fin 0)) (map Fin ps) = false.
Proof.
  induction 1 as [|p ps Hp Hps IH]; simpl; auto.
  rewrite IH, orb_false_r. apply Rltb_false. exact Hp.
Qed.

Lemma atol_nonneg : 0 <= atol.
Proof. unfold atol. apply sqrt_pos. Qed.

Lemma choice_nonempty (p : list float) (u : R) :
  p <> [] ->
  choice p u =
  if is_nan (np_sum p) then Err ValueError
  else if existsb (fun x => fltb x (Fin 0)) p then Err ValueError
  else if fltb (Fin atol) (fabs (fsub (np_sum p) (Fin 1)))
       then Err ValueError
  else Ok (Z.of_nat
             (searchsorted_right
                (map (fun c => fdiv c (last (np_cumsum p) NaN)) (np_cumsum p))
                (Fin u))).
Proof. destruct p; [congruence | reflexivity]. Qed.

(** On a probability vector and a sample of [[0, 1)], the draw returns
    an index of positive probability. *)
Lemma choice_spec (p : list float) (u : R) :
  p <> [] -> is_distribution p -> 0 <= u < 1 ->
  exists i q,
    choice p u = Ok (Z.of_nat i) /\ nth_error p i = Some (Fin q) /\ 0 < q.
Proof.
  intros Hne [Hprob Hsum] Hu.
  destruct (is_prob_Fin p Hprob) as (ps & -> & Hpos).
  assert (Hps : ps <> []) by (intros ->; apply Hne; reflexivity).
  rewrite np_sum_Fin in Hsum. inversion Hsum as [Hs].
  rewrite choice_nonempty by exact Hne.
  rewrite np_sum_Fin, Hs. simpl is_nan. cbv iota.
  rewrite existsb_negative by exact Hpos.
  assert (Htol : fltb (Fin atol) (fabs (fsub (Fin 1) (Fin 1))) = false).
  { unfold fsub. cbn [fltb fabs fadd fneg]. apply Rltb_false.
    rewrite Rplus_opp_r, Rabs_R0. apply atol_nonneg. }
  rewrite Htol. unfold np_cumsum.
  rewrite cumsum_last by exact Hps. rewrite Hs.
  destruct (search_cumsum ps 0 u (0 + 1)) as (i & q & Hi & Hn & Hq);
    [lra | exact Hpos | lra |].
  exists i, q. rewrite Hi. repeat split; auto.
  rewrite nth_error_map, Hn. reflexivity.
Qed.


(** ** One iteration of the loop *)

Lemma py_index_nonneg {A : Type} (l : list A) (i : Z) :
  (0 <= i < Z.of_nat (length l))%Z ->
  exists a, py_index l i = Ok a /\ nth_error l (Z.to_nat i) = Some a.
Proof.
  intros H. unfold py_index.
  destruct (Z.ltb_spec i 0); [lia|].
  destruct (Z.ltb_spec i 0); [lia|].
  destruct (Z.leb_spec (Z.of_nat (length l)) i); [lia|]. simpl.
  destruct (nth_error l (Z.to_nat i)) eqn:E; eauto.
  apply nth_error_None in E. lia.
Qed.

Lemma py_index_last {A : Type} (l : list A) :
  l <> [] ->
  exists a, py_index l (-1) = Ok a /\ nth_error l (length l - 1) = Some a.
Proof.
  intros Hne. unfold py_index.
  assert (0 < length l)%nat by (destruct l; simpl; [congruence | lia]).
  replace (-1 <? 0)%Z with true by reflexivity.
  destruct (Z.ltb_spec (-1 + Z.of_nat (length l)) 0); [lia|].
  destruct (Z.leb_spec (Z.of_nat (length l)) (-1 + Z.of_nat (length l)));
    [lia|]. cbv beta iota delta [orb].
  replace (Z.to_nat (-1 + Z.of_nat (length l))) with (length l - 1)%nat by lia.
  destruct (nth_error l (length l - 1)) eqn:E; eauto.
  apply nth_error_None in E. lia.
Qed.

Lemma truncate_below_nth (t : float) (x : list float) (i : nat) (r : R) :
  nth_error (truncate_below t x) i = Some (Fin r) ->
  nth_error x i = Some (Fin r) /\ fltb (Fin r) t = false.
Proof.
  unfold truncate_below. rewrite nth_error_map.
  destruct (nth_error x i) as [s|]; simpl; [|discriminate].
  destruct (fltb s t) eqn:E; intros H; inversion H; subst; auto.
Qed.

(** Top-K truncation keeps a row of logits a row of logits, and a real
    score of the result is a real score of the argument. *)
Lemma get_top_k_logits_logit_row (x : list float) (top_k : Z) :
  logit_row x ->
  exists out,
    get_top_k_logits x top_k = Ok out /\ logit_row out /\
    length out = length x /\
    forall i r, nth_error out i = Some (Fin r) -> nth_error x i = Some (Fin r).
Proof.
  intros Hrow.
  pose proof (logit_row_nonempty x Hrow) as Hne.
  destruct (np_max_logit_row x Hrow) as (mx & _ & Hin & Hle).
  destruct Hrow as [Hlog Hfin].
  destruct (get_top_k_logits_threshold x top_k Hne (logits_no_nan x Hlog))
    as (t & (Ht & _) & Hrun).
  exists (truncate_below t x). split; [exact Hrun|]. split; [split|split].
  - unfold truncate_below. apply Forall_map.
    eapply Forall_impl; [|exact Hlog].
    intros s Hs. simpl. destruct (fltb s t); simpl; auto.
  - apply Exists_exists. exists (Fin mx). split; [|exact I].
    unfold truncate_below.
    replace (Fin mx) with (if fltb (Fin mx) t then NInf else Fin mx).
    + apply (in_map (fun s => if fltb s t then NInf else s)), Hin.
    + destruct (fltb (Fin mx) t) eqn:E; auto.
      apply fltb_true_not_fle in E. exfalso. apply E, Hle, Ht.
  - unfold truncate_below. apply length_map.
  - intros i r H. apply truncate_below_nth in H. tauto.
Qed.

Lemma process_logits_default (input_ids : list Z) (scores : list float)
  (eos_token_id : Z) :
  process_logits input_ids scores eos_token_id default_min_length = Ok scores.
Proof.
  unfold process_logits, default_min_length.
  destruct (Z.ltb_spec (Z.of_nat (length input_ids)) 0); [lia|]. reflexivity.
Qed.

(** From a row of logits, filtering, softmax and the draw give a token
    that has a real score in that row. *)
Lemma sample_row (row : list float) (top_k : Z) (u : R) :
  logit_row row -> 0 <= u < 1 ->
  exists i r,
    (scores <- get_top_k_logits row top_k ;;
     probs <- softmax scores ;;
     choice probs u) = Ok (Z.of_nat i) /\
    nth_error row i = Some (Fin r).
Proof.
  intros Hrow Hu.
  destruct (get_top_k_logits_logit_row row top_k Hrow)
    as (out & Hk & Hout & Hlen & Hsub).
  destruct (softmax_logit_row out Hout)
    as (ps & Hsm & Hlps & Hpos & Hsum & Hinf & _).
  assert (Hne : map Fin ps <> []).
  { pose proof (logit_row_nonempty out Hout).
    destruct out; [congruence|]. destruct ps; simpl in *; congruence. }
  assert (Hd : is_distribution (map Fin ps)).
  { split; [apply Forall_is_prob_Fin, Hpos|].
    rewrite np_sum_Fin, Hsum. reflexivity. }
  destruct (choice_spec (map Fin ps) u Hne Hd Hu) as (i & q & Hc & Hn & Hq).
  rewrite Hk. simpl. rewrite Hsm. simpl. rewrite Hc.
  rewrite nth_error_map in Hn.
  destruct (nth_error ps i) as [q'|] eqn:Ei; simpl in Hn; [|discriminate].
  inversion Hn; subst q'.
  assert (Hi : (i < length out)%nat)
    by (rewrite <- Hlps; apply nth_error_Some; congruence).
  destruct (nth_error out i) as [s|] eqn:Eo;
    [|apply nth_error_None in Eo; lia].
  destruct Hout as [Hlog _]. rewrite Forall_forall in Hlog.
  pose proof (Hlog s (nth_error_In _ _ Eo)) as Hs.
  destruct s as [| | |r]; simpl in Hs; try tauto.
  - rewrite (Hinf i Eo) in Ei. inversion Ei. lra.
  - exists i, r. split; auto.
Qed.

Lemma next_token_row (outputs : list (list float)) (input_ids : list Z)
  (eos_token_id : Z) (u : R) (row : list float) :
  py_index outputs (Z.of_nat (length input_ids) - 1) = Ok row ->
  logit_row row -> 0 <= u < 1 ->
  exists i r,
    next_token outputs input_ids eos_token_id u = Ok (Z.of_nat i) /\
    nth_error row i = Some (Fin r).
Proof.
  intros Hidx Hrow Hu. unfold next_token. rewrite Hidx. simpl.
  rewrite process_logits_default. simpl.
  apply sample_row; auto.
Qed.

(** ** The loop *)

Section Loop.

Variable w : world.
Variables max_sequence_length eos_token_id : Z.

Local Abbreviation model_input ids :=
  (padded ids max_sequence_length eos_token_id).
Local Abbreviation sampled calls ids :=
  (sampled_token w calls ids max_sequence_length eos_token_id).

Lemma generate_sequence_unfold (fuel : nat) (calls : list (list Z))
  (input_ids : list Z) :
  generate_sequence w (S fuel) calls input_ids max_sequence_length
    eos_token_id =
  match sampled calls input_ids with
  | Err e => (calls ++ [model_input input_ids], Raised e)
  | Ok next_tokens =>
      if ((Z.of_nat (length input_ids) =? max_sequence_length)
          || (next_tokens =? eos_token_id))%Z
      then (calls ++ [model_input input_ids], Returned input_ids)
      else generate_sequence w fuel (calls ++ [model_input input_ids])
             (input_ids ++ [next_tokens]) max_sequence_length eos_token_id
  end.
Proof. reflexivity. Qed.

Lemma generate_sequence_break (fuel : nat) (calls : list (list Z))
  (input_ids : list Z) (next_tokens : Z) :
  sampled calls input_ids = Ok next_tokens ->
  Z.of_nat (length input_ids) = max_sequence_length \/
  next_tokens = eos_token_id ->
  generate_sequence w (S fuel) calls input_ids max_sequence_length
    eos_token_id = (calls ++ [model_input input_ids], Returned input_ids).
Proof.
  intros Hs Hstop. rewrite generate_sequence_unfold, Hs.
  replace ((Z.of_nat (length input_ids) =? max_sequence_length)
           || (next_tokens =? eos_token_id))%Z with true; auto.
  symmetry. apply orb_true_iff.
  destruct Hstop; [left | right]; apply Z.eqb_eq; auto.
Qed.

Lemma generate_sequence_continue (fuel : nat) (calls : list (list Z))
  (input_ids : list Z) (next_tokens : Z) :
  sampled calls input_ids = Ok next_tokens ->
  Z.of_nat (length input_ids) <> max_sequence_length ->
  next_tokens <> eos_token_id ->
  generate_sequence w (S fuel) calls input_ids max_sequence_length
    eos_token_id =
  generate_sequence w fuel (calls ++ [model_input input_ids])
    (input_ids ++ [next_tokens]) max_sequence_length eos_token_id.
Proof.
  intros Hs H1 H2. rewrite generate_sequence_unfold, Hs.
  apply Z.eqb_neq in H1, H2. rewrite H1, H2. reflexivity.
Qed.

(** The loop only appends: what it returns extends what it started
    from, and so does the list of the calls. *)
Lemma generate_sequence_extends (fuel : nat) :
  forall calls input_ids calls' out,
    generate_sequence w fuel calls input_ids max_sequence_length
      eos_token_id = (calls', Returned out) ->
    (exists suffix, out = input_ids ++ suffix) /\
    (exists later, calls' = calls ++ later).
Proof.
  induction fuel as [|fuel IH]; intros calls ids calls' out.
  - simpl. discriminate.
  - rewrite generate_sequence_unfold.
    destruct (sampled calls ids) as [tok|e]; [|discriminate].
    destruct ((Z.of_nat (length ids) =? max_sequence_length)
              || (tok =? eos_token_id))%Z.
    + intros H. inversion H; subst. split.
      * exists []. rewrite app_nil_r. reflexivity.
      * eexists. reflexivity.
    + intros H. apply IH in H. destruct H as [[suffix ->] [later ->]].
      split.
      * exists (tok :: suffix). rewrite <- app_assoc. reflexivity.
      * eexists. rewrite <- app_assoc. reflexivity.
Qed.

(** From at most [max_sequence_length] tokens the loop never returns
    more than [max_sequence_length] tokens. *)
Lemma generate_sequence_bounded (fuel : nat) :
  forall calls input_ids calls' out,
    (Z.of_nat (length input_ids) <= max_sequence_length)%Z ->
    generate_sequence w fuel calls input_ids max_sequence_length
      eos_token_id = (calls', Returned out) ->
    (Z.of_nat (length out) <= max_sequence_length)%Z.
Proof.
  induction fuel as [|fuel IH]; intros calls ids calls' out Hlen.
  - simpl. discriminate.
  - rewrite generate_sequence_unfold.
    destruct (sampled calls ids) as [tok|e]; [|discriminate].
    destruct (Z.eqb_spec (Z.of_nat (length ids)) max_sequence_length)
      as [E|E]; simpl.
    + intros H. inversion H; subst. lia.
    + destruct (tok =? eos_token_id)%Z.
      * intros H. inversion H; subst. lia.
      * apply IH. rewrite length_app. simpl. lia.
Qed.

(** From at most [max_sequence_length] tokens the loop ends within
    [max_sequence_length - length input_ids + 1] iterations. *)
Lemma generate_sequence_ends (fuel : nat) :
  forall calls input_ids,
    (Z.of_nat (length input_ids) <= max_sequence_length)%Z ->
    (max_sequence_length - Z.of_nat (length input_ids) < Z.of_nat fuel)%Z ->
    snd (generate_sequence w fuel calls input_ids max_sequence_length
           eos_token_id) <> OutOfFuel.
Proof.
  induction fuel as [|fuel IH]; intros calls ids Hlen Hfuel.
  - simpl in Hfuel. lia.
  - rewrite generate_sequence_unfold.
    destruct (sampled calls ids) as [tok|e]; [|simpl; discriminate].
    destruct (Z.eqb_spec (Z.of_nat (length ids)) max_sequence_length)
      as [E|E]; simpl; [discriminate|].
    destruct (tok =? eos_token_id)%Z; [simpl; discriminate|].
    apply IH; rewrite length_app; simpl; lia.
Qed.

(** More fuel does not change a run that has ended. *)
Lemma generate_sequence_fuel (fuel : nat) :
  forall fuel' calls input_ids,
    (fuel <= fuel')%nat ->
    snd (generate_sequence w fuel calls input_ids max_sequence_length
           eos_token_id) <> OutOfFuel ->
    generate_sequence w fuel' calls input_ids max_sequence_length
      eos_token_id =
    generate_sequence w fuel calls input_ids max_sequence_length
      eos_token_id.
Proof.
  induction fuel as [|fuel IH]; intros fuel' calls ids Hle Hend.
  - simpl in Hend. congruence.
  - destruct fuel' as [|fuel']; [lia|].
    rewrite !generate_sequence_unfold in *.
    destruct (sampled calls ids) as [tok|e]; auto.
    destruct ((Z.of_nat (length ids) =? max_sequence_length)
              || (tok =? eos_token_id))%Z; auto.
    apply IH; [lia | exact Hend].
Qed.

(** When the model answers with one row of logits per position, the
    iteration samples a token that has a real score in one of the rows,
    unless both the sequence and the padded row are empty. *)
Lemma sampled_token_row (calls : list (list Z)) (input_ids : list Z)
  (outputs : list (list float)) :
  compiled_model w (length calls) (model_input input_ids) = Ok outputs ->
  length outputs = length (model_input input_ids) ->
  Forall logit_row outputs ->
  0 <= random_sample w (length calls) < 1 ->
  (1 <= Z.of_nat (length input_ids) \/ 1 <= max_sequence_length)%Z ->
  exists row i r,
    In row outputs /\
    sampled calls input_ids = Ok (Z.of_nat i) /\
    nth_error row i = Some (Fin r).
Proof.
  intros Hrun Hshape Hrows Hu Hlen. unfold sampled_token.
  rewrite Hrun. simpl.
  assert (Hlo : Z.of_nat (length outputs) =
                Z.max (Z.of_nat (length input_ids)) max_sequence_length).
  { rewrite Hshape. unfold padded. rewrite length_app, repeat_length.
    lia. }
  rewrite Forall_forall in Hrows.
  assert (Hidx : exists row,
             py_index outputs (Z.of_nat (length input_ids) - 1) = Ok row /\
             In row outputs).
  { destruct (Z.eq_dec (Z.of_nat (length input_ids)) 0) as [E|E].
    - rewrite E. destruct (py_index_last outputs) as (row & Hr & Hn).
      + intros ->. simpl in Hlo. lia.
      + exists row. split; auto. eapply nth_error_In; eauto.
    - destruct (py_index_nonneg outputs (Z.of_nat (length input_ids) - 1))
        as (row & Hr & Hn); [lia|].
      exists row. split; auto. eapply nth_error_In; eauto. }
  destruct Hidx as (row & Hidx & Hin).
  destruct (next_token_row outputs input_ids eos_token_id
              (random_sample w (length calls)) row Hidx (Hrows row Hin) Hu)
    as (i & r & Hnt & Hn).
  exists row, i, r. auto.
Qed.

Hypothesis Hmodel : well_formed_model w.
Hypothesis Hdraws : valid_draws w.

(** With a well-formed model and samples of [[0, 1)], an iteration
    samples a token, unless both the sequence and the padded row are
    empty. *)
Lemma sampled_ok (calls : list (list Z)) (input_ids : list Z) :
  (1 <= Z.of_nat (length input_ids) \/ 1 <= max_sequence_length)%Z ->
  exists tok, sampled calls input_ids = Ok tok /\ (0 <= tok)%Z.
Proof.
  intros Hlen.
  destruct (Hmodel (length calls) (model_input input_ids))
    as (outputs & Hrun & Hshape & Hrows).
  destruct (sampled_token_row calls input_ids outputs Hrun Hshape Hrows
              (Hdraws (length calls)) Hlen) as (row & i & r & _ & Hs & _).
  exists (Z.of_nat i). split; auto. lia.
Qed.

(** With a well-formed model and samples of [[0, 1)], the loop raises
    no exception. *)
Lemma generate_sequence_no_raise (fuel : nat) :
  forall calls input_ids e,
    (1 <= Z.of_nat (length input_ids) \/ 1 <= max_sequence_length)%Z ->
    snd (generate_sequence w fuel calls input_ids max_sequence_length
           eos_token_id) <> Raised e.
Proof.
  induction fuel as [|fuel IH]; intros calls ids e Hlen.
  - simpl. discriminate.
  - rewrite generate_sequence_unfold.
    destruct (sampled_ok calls ids Hlen) as (tok & -> & _).
    destruct ((Z.of_nat (length ids) =? max_sequence_length)
              || (tok =? eos_token_id))%Z; [simpl; discriminate|].
    apply IH. left. rewrite length_app. simpl. lia.
Qed.

(** With a well-formed model and samples of [[0, 1)], the loop started
    from at most [max_sequence_length] tokens returns. *)
Lemma generate_sequence_returns (fuel : nat) (calls : list (list Z))
  (input_ids : list Z) :
  (1 <= max_sequence_length)%Z ->
  (Z.of_nat (length input_ids) <= max_sequence_length)%Z ->
  (max_sequence_length - Z.of_nat (length input_ids) < Z.of_nat fuel)%Z ->
  exists out,
    snd (generate_sequence w fuel calls input_ids max_sequence_length
           eos_token_id) = Returned out.
Proof.
  intros Hmax Hlen Hfuel.
  pose proof (generate_sequence_ends fuel calls input_ids Hlen Hfuel) as H1.
  pose proof (fun e => generate_sequence_no_raise fuel calls input_ids e
                         (or_intror Hmax)) as H2.
  destruct (snd (generate_sequence w fuel calls input_ids
                   max_sequence_length eos_token_id)) as [out|e|].
  - exists out. reflexivity.
  - destruct (H2 e). reflexivity.
  - congruence.
Qed.

End Loop.

(** ** A model that favours one token *)

Lemma favoring_nth (V tok i : nat) (r : R) :
  nth_error (favoring V tok) i = Some (Fin r) -> i = tok.
Proof.
  unfold favoring. generalize (V - S tok)%nat as n. intros n.
  revert i. induction tok as [|tok IH]; intros [|i]; simpl.
  - reflexivity.
  - intros H. apply nth_error_In, repeat_spec in H. discriminate.
  - discriminate.
  - intros H. f_equal. apply IH, H.
Qed.

Lemma favoring_logit_row (V tok : nat) : logit_row (favoring V tok).
Proof.
  unfold favoring. split.
  - apply Forall_app. split; [|constructor; [exact I|]];
      apply Forall_forall; intros a Ha; apply repeat_spec in Ha;
      subst; exact I.
  - apply Exists_app. right. apply Exists_cons_hd. exact I.
Qed.

Lemma favoring_world_well_formed (V tok : nat) (rnd : nat -> R) :
  well_formed_model (favoring_world V tok rnd).
Proof.
  intros n x. eexists. split; [reflexivity|].
  split; [apply repeat_length|].
  apply Forall_forall. intros row Hrow. apply repeat_spec in Hrow.
  subst. apply favoring_logit_row.
Qed.

Lemma favoring_world_sampled (V tok : nat) (rnd : nat -> R)
  (calls : list (list Z)) (input_ids : list Z) (max eos : Z) :
  (forall n, 0 <= rnd n < 1) ->
  (1 <= Z.of_nat (length input_ids) \/ 1 <= max)%Z ->
  sampled_token (favoring_world V tok rnd) calls input_ids max eos =
  Ok (Z.of_nat tok).
Proof.
  intros Hrnd Hlen.
  destruct (favoring_world_well_formed V tok rnd (length calls)
              (padded input_ids max eos)) as (outputs & Hrun & Hshape & Hrows).
  destruct (sampled_token_row (favoring_world V tok rnd) max eos calls
              input_ids outputs Hrun Hshape Hrows (Hrnd (length calls)) Hlen)
    as (row & i & r & Hin & Hs & Hn).
  simpl in Hrun. inversion Hrun; subst outputs.
  apply repeat_spec in Hin. subst row.
  apply favoring_nth in Hn. subst i. exact Hs.
Qed.

(** C1. When the stop condition holds after the draw (the sequence has
    [max_sequence_length] tokens, or the sampled token is
    [eos_token_id]), [generate_sequence] returns [input_ids] without the
    sampled token.  With the prompt [5, 9, 2], [max_sequence_length = 5]
    and [eos_token_id = 50], a model and a generator that make every
    iteration sample 50 give [5, 9, 2], and a model and a generator that
    make every iteration sample 7 give [5, 9, 2, 7, 7]. *)
Theorem generate_sequence_stop_discards :
  (forall w fuel calls input_ids max eos next_tokens,
     sampled_token w calls input_ids max eos = Ok next_tokens ->
     Z.of_nat (length input_ids) = max \/ next_tokens = eos ->
     snd (generate_sequence w (S fuel) calls input_ids max eos) =
     Returned input_ids) /\
  (forall w fuel,
     (forall calls input_ids,
        sampled_token w calls input_ids 5 50 = Ok 50%Z) ->
     (1 <= fuel)%nat ->
     snd (run w fuel [5; 9; 2] 5 50)%Z = Returned [5; 9; 2]%Z) /\
  (forall w fuel,
     (forall calls input_ids,
        sampled_token w calls input_ids 5 50 = Ok 7%Z) ->
     (3 <= fuel)%nat ->
     snd (run w fuel [5; 9; 2] 5 50)%Z = Returned [5; 9; 2; 7; 7]%Z).
Proof.
  split; [|split].
  - intros w fuel calls ids max eos tok Hs Hstop.
    rewrite (generate_sequence_break w max eos fuel calls ids tok Hs Hstop).
    reflexivity.
  - intros w fuel Hpick Hfuel. unfold run.
    destruct fuel as [|fuel]; [lia|].
    rewrite (generate_sequence_break _ _ _ fuel [] _ 50%Z); auto.
  - intros w fuel Hpick Hfuel. unfold run.
    do 3 (destruct fuel as [|fuel]; [lia|]).
    rewrite (generate_sequence_continue _ _ _ _ [] _ 7%Z);
      [| apply Hpick | simpl; lia | lia].
    rewrite (generate_sequence_continue _ _ _ _ _ _ 7%Z);
      [| apply Hpick | simpl; lia | lia].
    rewrite (generate_sequence_break _ _ _ fuel _ _ 7%Z);
      [reflexivity | apply Hpick | left; reflexivity].
Qed.

Lemma generate_sequence_stop_discards_witness :
  snd (run (favoring_world 51 50 (fun _ => 0%R)) 1 [5; 9; 2] 5 50)%Z =
    Returned [5; 9; 2]%Z /\
  snd (run (favoring_world 51 7 (fun _ => 0%R)) 3 [5; 9; 2] 5 50)%Z =
    Returned [5; 9; 2; 7; 7]%Z /\
  snd (generate_sequence (favoring_world 51 7 (fun _ => 0%R)) 1 []
         [5; 9; 2; 7; 7] 5 50)%Z = Returned [5; 9; 2; 7; 7]%Z.
Proof.
  destruct generate_sequence_stop_discards as (Hstop & Heos & Hmax).
  assert (Hrnd : forall n : nat, 0 <= (fun _ : nat => 0) n < 1)
    by (intros n; simpl; lra).
  split; [|split].
  - apply Heos; [|lia]. intros calls ids.
    apply (favoring_world_sampled 51 50); [exact Hrnd | lia].
  - apply Hmax; [|lia]. intros calls ids.
    apply (favoring_world_sampled 51 7); [exact Hrnd | lia].
  - apply (Hstop _ _ _ _ _ _ 7%Z).
    + apply (favoring_world_sampled 51 7); [exact Hrnd | simpl; lia].
    + left. reflexivity.
Defined.

(** C2. From a prompt of at least one and at most [max_sequence_length]
    tokens, whatever the model answers and whatever is drawn, the run
    ends within [max_sequence_length - length prompt_tokens + 1]
    iterations, a returned sequence has at least as many tokens as the
    prompt and at most [max_sequence_length], and with a well-formed
    model and samples of [[0, 1)] the run does return. *)
Theorem generate_sequence_length_bounds (w : world) (fuel : nat)
  (prompt_tokens : list Z) (max_sequence_length eos_token_id : Z) :
  (1 <= Z.of_nat (length prompt_tokens) <= max_sequence_length)%Z ->
  (max_sequence_length - Z.of_nat (length prompt_tokens) < Z.of_nat fuel)%Z ->
  let o := snd (run w fuel prompt_tokens max_sequence_length eos_token_id) in
  o <> OutOfFuel /\
  (forall out, o = Returned out ->
     (length prompt_tokens <= length out)%nat /\
     (Z.of_nat (length out) <= max_sequence_length)%Z) /\
  (well_formed_model w -> valid_draws w -> exists out, o = Returned out).
Proof.
  intros Hlen Hfuel o. unfold o, run. split; [|split].
  - apply generate_sequence_ends; lia.
  - intros out Hout.
    destruct (generate_sequence w fuel [] prompt_tokens max_sequence_length
                eos_token_id) as [calls' o'] eqn:E.
    simpl in Hout. subst o'. split.
    + apply generate_sequence_extends in E. destruct E as [[suffix ->] _].
      rewrite length_app. lia.
    + eapply generate_sequence_bounded; [|exact E]. lia.
  - intros Hmodel Hdraws. apply generate_sequence_returns; auto; lia.
Qed.

Lemma generate_sequence_length_bounds_witness :
  exists out,
    snd (run (favoring_world 51 7 (fun _ => 0%R)) 3 [5; 9; 2] 5 50)%Z =
      Returned out /\
    (3 <= length out)%nat /\ (Z.of_nat (length out) <= 5)%Z.
Proof.
  destruct (generate_sequence_length_bounds
              (favoring_world 51 7 (fun _ => 0%R)) 3 [5; 9; 2]%Z 5 50)
    as (_ & Hbounds & Hret).
  - simpl. lia.
  - simpl. lia.
  - destruct Hret as [out Hout].
    + apply favoring_world_well_formed.
    + intros n. simpl. lra.
    + exists out. split; [exact Hout|]. apply Hbounds, Hout.
Defined.

(** C10. From a prompt of at most [max_sequence_length] tokens, whatever
    the model answers and whatever is drawn, the run ends within
    [max_sequence_length - length prompt_tokens + 1] iterations and a
    returned sequence starts with the prompt; with a well-formed model,
    samples of [[0, 1)] and [max_sequence_length >= 1] the run does
    return. *)
Theorem generate_sequence_keeps_prompt (w : world) (fuel : nat)
  (prompt_tokens : list Z) (max_sequence_length eos_token_id : Z) :
  (Z.of_nat (length prompt_tokens) <= max_sequence_length)%Z ->
  (max_sequence_length - Z.of_nat (length prompt_tokens) < Z.of_nat fuel)%Z ->
  let o := snd (run w fuel prompt_tokens max_sequence_length eos_token_id) in
  o <> OutOfFuel /\
  (forall out, o = Returned out ->
     firstn (length prompt_tokens) out = prompt_tokens) /\
  (well_formed_model w -> valid_draws w -> (1 <= max_sequence_length)%Z ->
   exists out, o = Returned out).
Proof.
  intros Hlen Hfuel o. unfold o, run. split; [|split].
  - apply generate_sequence_ends; lia.
  - intros out Hout.
    destruct (generate_sequence w fuel [] prompt_tokens max_sequence_length
                eos_token_id) as [calls' o'] eqn:E.
    simpl in Hout. subst o'.
    apply generate_sequence_extends in E. destruct E as [[suffix ->] _].
    rewrite firstn_app, Nat.sub_diag, firstn_all. simpl.
    apply app_nil_r.
  - intros Hmodel Hdraws Hmax. apply generate_sequence_returns; auto.
Qed.

Lemma generate_sequence_keeps_prompt_witness :
  exists out,
    snd (run (favoring_world 51 7 (fun _ => 0%R)) 4 [5; 9] 5 50)%Z =
      Returned out /\
    firstn 2 out = [5; 9]%Z.
Proof.
  destruct (generate_sequence_keeps_prompt
              (favoring_world 51 7 (fun _ => 0%R)) 4 [5; 9]%Z 5 50)
    as (_ & Hprefix & Hret).
  - simpl. lia.
  - simpl. lia.
  - destruct Hret as [out Hout].
    + apply favoring_world_well_formed.
    + intros n. simpl. lra.
    + lia.
    + exists out. split; [exact Hout|]. apply Hprefix, Hout.
Defined.

Lemma padded_full (input_ids : list Z) (max_sequence_length eos_token_id : Z) :
  (max_sequence_length <= Z.of_nat (length input_ids))%Z ->
  padded input_ids max_sequence_length eos_token_id = input_ids.
Proof.
  intros H. unfold padded.
  replace (Z.to_nat (max_sequence_length - Z.of_nat (length input_ids)))
    with O by lia.
  apply app_nil_r.
Qed.

(** C4, as amended.  When the sequence has [max_sequence_length] tokens
    at the start of an iteration, the iteration calls the model once
    more, on [input_ids] itself, and then returns [input_ids] unchanged
    unless the call or the sampling raises; with a well-formed model,
    samples of [[0, 1)] and [max_sequence_length >= 1] it returns
    [input_ids]. *)
Theorem generate_sequence_at_max_length (w : world) (fuel : nat)
  (calls : list (list Z)) (input_ids : list Z)
  (max_sequence_length eos_token_id : Z) :
  Z.of_nat (length input_ids) = max_sequence_length ->
  let r := generate_sequence w (S fuel) calls input_ids max_sequence_length
             eos_token_id in
  fst r = calls ++ [input_ids] /\
  (snd r = Returned input_ids \/ exists e, snd r = Raised e) /\
  (well_formed_model w -> valid_draws w -> (1 <= max_sequence_length)%Z ->
   snd r = Returned input_ids).
Proof.
  intros Hlen r. unfold r. rewrite generate_sequence_unfold.
  rewrite padded_full by lia.
  destruct (sampled_token w calls input_ids max_sequence_length
              eos_token_id) as [tok|e] eqn:E.
  - apply Z.eqb_eq in Hlen. rewrite Hlen. simpl. auto.
  - simpl. split; auto. split; [right; eauto|].
    intros Hmodel Hdraws Hmax.
    destruct (sampled_ok w max_sequence_length eos_token_id Hmodel Hdraws
                calls input_ids) as (tok & Htok & _); [lia|].
    congruence.
Qed.

Lemma generate_sequence_at_max_length_witness :
  generate_sequence (favoring_world 51 7 (fun _ => 0%R)) 1 []
    [5; 9; 2]%Z 3 50 = ([[5; 9; 2]%Z], Returned [5; 9; 2]%Z).
Proof.
  destruct (generate_sequence_at_max_length
              (favoring_world 51 7 (fun _ => 0%R)) 0 [] [5; 9; 2]%Z 3 50)
    as (Hcalls & _ & Hret).
  - reflexivity.
  - apply injective_projections; [exact Hcalls|].
    apply Hret.
    + apply favoring_world_well_formed.
    + intros n. simpl. lra.
    + lia.
Defined.

(** C4, the claim as it is written, fails: with three tokens and
    [max_sequence_length = 3] the model is called, on the full
    sequence. *)
Lemma model_called_at_max_length :
  fst (run (favoring_world 51 7 (fun _ => 0%R)) 1 [5; 9; 2]%Z 3 50) =
    [[5; 9; 2]%Z] /\
  fst (run (favoring_world 51 7 (fun _ => 0%R)) 1 [5; 9; 2]%Z 3 50) <> [].
Proof.
  assert (H : fst (run (favoring_world 51 7 (fun _ => 0%R)) 1
                     [5; 9; 2]%Z 3 50) = [[5; 9; 2]%Z]).
  { unfold run. rewrite generate_sequence_unfold.
    rewrite favoring_world_sampled; [reflexivity | intros; lra | simpl; lia]. }
  split; [exact H|]. rewrite H. discriminate.
Qed.

Lemma generate_sequence_calls (w : world) (max_sequence_length eos_token_id : Z)
  (fuel : nat) :
  forall calls input_ids,
    exists later,
      fst (generate_sequence w fuel calls input_ids max_sequence_length
             eos_token_id) = calls ++ later.
Proof.
  induction fuel as [|fuel IH]; intros calls ids.
  - exists []. simpl. rewrite app_nil_r. reflexivity.
  - rewrite generate_sequence_unfold.
    destruct (sampled_token w calls ids max_sequence_length eos_token_id)
      as [tok|e]; [|eexists; reflexivity].
    destruct ((Z.of_nat (length ids) =? max_sequence_length)
              || (tok =? eos_token_id))%Z; [eexists; reflexivity|].
    destruct (IH (calls ++ [padded ids max_sequence_length eos_token_id])
                (ids ++ [tok])) as [later ->].
    eexists. rewrite <- app_assoc. reflexivity.
Qed.

(** C8, as amended.  A prompt longer than [max_sequence_length] raises
    no error at entry: the first iteration calls the model on the prompt
    itself, without padding; when the token it samples is
    [eos_token_id] the prompt is returned unchanged; and with a
    well-formed model and samples of [[0, 1)] that iteration does sample
    a token. *)
Theorem generate_sequence_long_prompt (w : world) (fuel : nat)
  (prompt_tokens : list Z) (max_sequence_length eos_token_id : Z) :
  (max_sequence_length < Z.of_nat (length prompt_tokens))%Z ->
  let r := run w (S fuel) prompt_tokens max_sequence_length eos_token_id in
  (exists later, fst r = prompt_tokens :: later) /\
  (sampled_token w [] prompt_tokens max_sequence_length eos_token_id =
     Ok eos_token_id ->
   r = ([prompt_tokens], Returned prompt_tokens)) /\
  (well_formed_model w -> valid_draws w ->
   (1 <= Z.of_nat (length prompt_tokens))%Z ->
   exists tok,
     sampled_token w [] prompt_tokens max_sequence_length eos_token_id =
     Ok tok).
Proof.
  intros Hlen r. unfold r, run. split; [|split].
  - rewrite generate_sequence_unfold. rewrite padded_full by lia.
    destruct (sampled_token w [] prompt_tokens max_sequence_length
                eos_token_id) as [tok|e]; [|eexists; reflexivity].
    destruct ((Z.of_nat (length prompt_tokens) =? max_sequence_length)
              || (tok =? eos_token_id))%Z; [eexists; reflexivity|].
    destruct (generate_sequence_calls w max_sequence_length eos_token_id
                fuel ([] ++ [prompt_tokens]) (prompt_tokens ++ [tok]))
      as [later ->].
    eexists. reflexivity.
  - intros Hs.
    rewrite (generate_sequence_break w max_sequence_length eos_token_id
               fuel [] prompt_tokens eos_token_id Hs (or_intror eq_refl)).
    rewrite padded_full by lia. reflexivity.
  - intros Hmodel Hdraws Hpos.
    destruct (sampled_ok w max_sequence_length eos_token_id Hmodel Hdraws
                [] prompt_tokens) as (tok & Htok & _); [lia|].
    exists tok. exact Htok.
Qed.

Lemma generate_sequence_long_prompt_witness :
  (exists later,
     fst (run (favoring_world 51 7 (fun _ => 0%R)) 2 [5; 9; 2; 4]%Z 3 50) =
     [5; 9; 2; 4]%Z :: later) /\
  run (favoring_world 51 50 (fun _ => 0%R)) 1 [5; 9; 2; 4]%Z 3 50 =
    ([[5; 9; 2; 4]%Z], Returned [5; 9; 2; 4]%Z) /\
  exists tok,
    sampled_token (favoring_world 51 7 (fun _ => 0%R)) [] [5; 9; 2; 4]%Z
      3 50 = Ok tok.
Proof.
  assert (Hrnd : forall n : nat, 0 <= (fun _ : nat => 0) n < 1)
    by (intros n; simpl; lra).
  destruct (generate_sequence_long_prompt
              (favoring_world 51 7 (fun _ => 0%R)) 1 [5; 9; 2; 4]%Z 3 50)
    as (Hcalls & _ & Hsample); [simpl; lia|].
  destruct (generate_sequence_long_prompt
              (favoring_world 51 50 (fun _ => 0%R)) 0 [5; 9; 2; 4]%Z 3 50)
    as (_ & Heos & _); [simpl; lia|].
  split; [exact Hcalls|]. split.
  - apply Heos.
    apply (favoring_world_sampled 51 50); [exact Hrnd | simpl; lia].
  - apply Hsample.
    + apply favoring_world_well_formed.
    + exact Hrnd.
    + simpl. lia.
Defined.

(** C8, the claim as it is written, fails: with a prompt of four tokens
    and [max_sequence_length = 3] no exception is raised; the model is
    called on the four tokens, and when it makes the sampler pick
    [eos_token_id] the four tokens are returned. *)
Lemma long_prompt_not_rejected :
  run (favoring_world 51 50 (fun _ => 0%R)) 1 [5; 9; 2; 4]%Z 3 50 =
    ([[5; 9; 2; 4]%Z], Returned [5; 9; 2; 4]%Z) /\
  forall e,
    run (favoring_world 51 50 (fun _ => 0%R)) 1 [5; 9; 2; 4]%Z 3 50 <>
    ([], Raised e).
Proof.
  assert (H : run (favoring_world 51 50 (fun _ => 0%R)) 1
                [5; 9; 2; 4]%Z 3 50 =
              ([[5; 9; 2; 4]%Z], Returned [5; 9; 2; 4]%Z)).
  { unfold run. rewrite generate_sequence_unfold.
    rewrite favoring_world_sampled; [reflexivity | intros; lra | simpl; lia]. }
  split; [exact H|]. intros e. rewrite H. discriminate.
Qed.

(** ** Top-1 sampling *)

Lemma count_zero (p : float -> bool) (l : list float) :
  count p l = O -> forall x, In x l -> p x = false.
Proof.
  unfold count. induction l as [|a l IH]; simpl; intros H x Hx; [tauto|].
  destruct (p a) eqn:E; simpl in H; [discriminate|].
  destruct Hx as [<-|Hx]; auto.
Qed.

Lemma Rsum_zero (ps : list R) :
  (forall j r, nth_error ps j = Some r -> r = 0) -> Rsum ps = 0.
Proof.
  induction ps as [|a ps IH]; simpl; intros H; auto.
  rewrite (H O a eq_refl), IH; [lra|].
  intros j r Hj. apply (H (S j)). exact Hj.
Qed.

Lemma Rsum_single (ps : list R) (i0 : nat) (q : R) :
  nth_error ps i0 = Some q ->
  (forall j r, j <> i0 -> nth_error ps j = Some r -> r = 0) ->
  Rsum ps = q.
Proof.
  revert i0. induction ps as [|a ps IH]; intros [|i0]; simpl; intros Hq H;
    try discriminate.
  - inversion Hq; subst. rewrite Rsum_zero; [lra|].
    intros j r Hj. apply (H (S j)); auto.
  - rewrite (IH i0 Hq).
    + rewrite (H O a); auto. lra.
    + intros j r Hj. apply (H (S j)). congruence.
Qed.

(** With [top_k = 1] and a unique largest score, only that score
    survives the truncation. *)
Lemma get_top_1_logits (scores : list float) (i0 : nat) (m : R) :
  Forall is_logit scores ->
  nth_error scores i0 = Some (Fin m) ->
  (forall j s, j <> i0 -> nth_error scores j = Some s ->
     fltb s (Fin m) = true) ->
  get_top_k_logits scores 1 = Ok (truncate_below (Fin m) scores) /\
  nth_error (truncate_below (Fin m) scores) i0 = Some (Fin m) /\
  forall j, j <> i0 -> (j < length scores)%nat ->
    nth_error (truncate_below (Fin m) scores) j = Some NInf.
Proof.
  intros Hlog Hmax Hothers.
  assert (Hne : scores <> []) by (intros ->; destruct i0; discriminate).
  destruct (get_top_k_logits_threshold scores 1 Hne (logits_no_nan _ Hlog))
    as (t & (Hin & _ & Hgt) & Hrun).
  assert (Hk : Z.to_nat (clamp_top_k 1 scores) = 1%nat).
  { pose proof (clamp_top_k_range 1 scores Hne). unfold clamp_top_k in *.
    lia. }
  rewrite Hk in Hgt.
  assert (Hnone : forall x, In x scores -> fltb t x = false)
    by (apply (count_zero (fun s => fltb t s)); lia).
  assert (Ht : t = Fin m).
  { apply In_nth_error in Hin. destruct Hin as [j Hj].
    destruct (Nat.eq_dec j i0) as [->|Hne']; [congruence|].
    pose proof (Hothers j t Hne' Hj) as E.
    rewrite (Hnone (Fin m)) in E; [discriminate|].
    eapply nth_error_In; eauto. }
  subst t. split; [exact Hrun|]. unfold truncate_below. split.
  - rewrite nth_error_map, Hmax. cbn [option_map].
    rewrite fltb_irrefl. reflexivity.
  - intros j Hj Hlt. rewrite nth_error_map.
    destruct (nth_error scores j) as [s|] eqn:E;
      [|apply nth_error_None in E; lia].
    simpl. rewrite (Hothers j s Hj E). reflexivity.
Qed.

(** C9. With [top_k = 1] and a row of logits whose largest score is
    real and attained at one index only, filtering and softmax put
    probability one on that index, the draw returns it for every sample
    of [[0, 1)], and so two runs on the same row return the same
    token. *)
Theorem top_1_sampling_deterministic (input_ids : list Z)
  (scores : list float) (eos_token_id : Z) (i0 : nat) (m : R) :
  Forall is_logit scores ->
  nth_error scores i0 = Some (Fin m) ->
  (forall j s, j <> i0 -> nth_error scores j = Some s ->
     fltb s (Fin m) = true) ->
  let distribution :=
    s0 <- process_logits input_ids scores eos_token_id default_min_length ;;
    s <- get_top_k_logits s0 1 ;;
    softmax s in
  let pipeline u := probs <- distribution ;; choice probs u in
  (exists probs,
     distribution = Ok probs /\
     nth_error probs i0 = Some (Fin 1) /\
     forall j, j <> i0 -> (j < length scores)%nat ->
       nth_error probs j = Some (Fin 0)) /\
  (forall u, 0 <= u < 1 -> pipeline u = Ok (Z.of_nat i0)) /\
  (forall u1 u2, 0 <= u1 < 1 -> 0 <= u2 < 1 -> pipeline u1 = pipeline u2).
Proof.
  intros Hlog Hmax Hothers distribution pipeline.
  destruct (get_top_1_logits scores i0 m Hlog Hmax Hothers)
    as (Hrun & Hkeep & Hdrop).
  set (out := truncate_below (Fin m) scores) in *.
  assert (Hlen : length out = length scores)
    by (unfold out, truncate_below; apply length_map).
  assert (Hrow : logit_row out).
  { split.
    - unfold out, truncate_below. apply Forall_map.
      eapply Forall_impl; [|exact Hlog].
      intros s Hs. simpl. destruct (fltb s (Fin m)); simpl; auto.
    - apply Exists_exists. exists (Fin m). split; [|exact I].
      eapply nth_error_In; eauto. }
  destruct (softmax_logit_row out Hrow)
    as (ps & Hsm & Hlps & Hpos & Hsum & Hinf & Hfin).
  destruct (Hfin i0 m Hkeep) as (q & Hq & Hq0).
  assert (Hzero : forall j r, j <> i0 -> nth_error ps j = Some r -> r = 0).
  { intros j r Hj Hr.
    assert (j < length scores)%nat
      by (rewrite <- Hlen, <- Hlps; apply nth_error_Some; congruence).
    rewrite (Hinf j (Hdrop j Hj H)) in Hr. congruence. }
  assert (Hq1 : q = 1)
    by (rewrite <- Hsum; symmetry; apply (Rsum_single ps i0); auto).
  subst q.
  assert (Hdist : distribution = Ok (map Fin ps)).
  { unfold distribution. rewrite process_logits_default. simpl.
    rewrite Hrun. simpl. exact Hsm. }
  assert (Hpipe : forall u, 0 <= u < 1 -> pipeline u = Ok (Z.of_nat i0)).
  { intros u Hu. unfold pipeline. rewrite Hdist. simpl.
    assert (Hne : map Fin ps <> [])
      by (destruct ps; [destruct i0|]; discriminate).
    assert (Hd : is_distribution (map Fin ps)).
    { split; [apply Forall_is_prob_Fin, Hpos|].
      rewrite np_sum_Fin, Hsum. reflexivity. }
    destruct (choice_spec (map Fin ps) u Hne Hd Hu) as (i & r & Hc & Hn & Hr).
    rewrite Hc. rewrite nth_error_map in Hn.
    destruct (nth_error ps i) as [r'|] eqn:E; simpl in Hn; [|discriminate].
    inversion Hn; subst r'.
    destruct (Nat.eq_dec i i0) as [->|Hne']; [reflexivity|].
    pose proof (Hzero i r Hne' E). lra. }
  split; [|split].
  - exists (map Fin ps). split; [exact Hdist|]. split.
    + rewrite nth_error_map, Hq. reflexivity.
    + intros j Hj Hlt. rewrite nth_error_map.
      rewrite (Hinf j (Hdrop j Hj Hlt)). reflexivity.
  - exact Hpipe.
  - intros u1 u2 H1 H2. rewrite (Hpipe u1 H1), (Hpipe u2 H2). reflexivity.
Qed.

Lemma top_1_sampling_deterministic_witness :
  (probs <-
     (s0 <- process_logits [5%Z] [Fin 1; Fin 3; Fin 2] 3
              default_min_length ;;
      s <- get_top_k_logits s0 1 ;;
      softmax s) ;;
   choice probs (1 / 2)) = Ok 1%Z.
Proof.
  destruct (top_1_sampling_deterministic [5%Z] [Fin 1; Fin 3; Fin 2] 3 1 3)
    as (_ & Hpipe & _).
  - repeat constructor.
  - reflexivity.
  - intros [|[|[|j]]] s Hj Hs; simpl in Hs; try congruence;
      try (destruct j; discriminate);
      inversion Hs; subst; simpl; apply Rltb_true; lra.
  - assert (Hu : 0 <= 1 / 2 < 1) by lra.
    exact (Hpipe (1 / 2) Hu).
Defined.

(** ** The filters and the caller's array *)

Lemma load_store_same (h : heap) (l : loc) (v : list float) :
  (l < length h)%nat -> load (store h l v) l = v.
Proof.
  intros H. unfold load, store.
  apply nth_error_nth. apply set_nth_same, H.
Qed.

Lemma load_store_other (h : heap) (l l' : loc) (v : list float) :
  l' <> l -> load (store h l v) l' = load h l'.
Proof.
  intros H. unfold load, store.
  pose proof (set_nth_other h l l' v H) as E.
  destruct (nth_error h l') as [a|] eqn:E'.
  - rewrite (nth_error_nth _ _ _ E), (nth_error_nth _ _ _ E'). reflexivity.
  - apply nth_error_None in E, E'. rewrite !nth_overflow; auto.
Qed.

Lemma load_alloc_old (h : heap) (v : list float) (l : loc) :
  (l < length h)%nat -> load (fst (alloc h v)) l = load h l.
Proof. intros H. unfold load, alloc. simpl. apply app_nth1, H. Qed.


Lemma filled_no_mask (f : float -> bool) (fill_value : float)
  (v : list float) :
  existsb (fun b : bool => b) (map f v) = false ->
  filled v (map f v) fill_value = v.
Proof.
  intros H. rewrite filled_map.
  induction v as [|a v IH]; simpl in *; auto.
  apply orb_false_iff in H. destruct H as [Ha Hv].
  rewrite Ha, IH; auto.
Qed.

(** On the store, [get_top_k_logits_st] computes what
    [get_top_k_logits] computes, and leaves every array of the store as
    it was. *)
Lemma get_top_k_logits_st_spec (h : heap) (scores : loc) (top_k : Z)
  (h' : heap) (l' : loc) :
  get_top_k_logits_st h scores top_k = Ok (h', l') ->
  get_top_k_logits (load h scores) top_k = Ok (load h' l') /\
  forall l, (l < length h)%nat -> load h' l = load h l.
Proof.
  unfold get_top_k_logits_st, get_top_k_logits.
  destruct (np_min
              (map fneg
                 (firstn
                    (Z.to_nat
                       (Z.min (Z.max top_k 1)
                          (Z.of_nat (length (load h scores)))))
                    (np_sort (map fneg (load h scores)))))) as [t|e]; simpl;
    [|discriminate].
  destruct (existsb (fun b : bool => b)
              (map (fun s => fltb s t) (load h scores))) eqn:E;
    intros H; inversion H; subst.
  - split.
    + unfold load. rewrite app_nth2 by lia.
      rewrite Nat.sub_diag. reflexivity.
    + intros l Hl. apply (load_alloc_old h _ l Hl).
  - split; auto. rewrite (filled_no_mask _ _ _ E). reflexivity.
Qed.

(** C5, as amended.  [get_top_k_logits] never changes an array of its
    caller: after the call every array holds the values it held before.
    [process_logits] leaves the store as it is and returns the array it
    was given when the current length is at least [min_length], as it
    always is with the default [min_length = 0]; when the current length
    is below [min_length] it writes minus infinity into the caller's
    array at [eos_token_id] and returns that same array, every other
    array being left as it was. *)
Theorem filters_and_caller_arrays (h : heap) (input_ids : list Z)
  (scores : loc) (eos_token_id min_length top_k : Z) :
  (scores < length h)%nat ->
  let cur_length := Z.of_nat (length input_ids) in
  (forall h' l',
     get_top_k_logits_st h scores top_k = Ok (h', l') ->
     get_top_k_logits (load h scores) top_k = Ok (load h' l') /\
     forall l, (l < length h)%nat -> load h' l = load h l) /\
  ((min_length <= cur_length)%Z ->
   process_logits_st h input_ids scores eos_token_id min_length =
   Ok (h, scores)) /\
  process_logits_st h input_ids scores eos_token_id default_min_length =
  Ok (h, scores) /\
  ((cur_length < min_length)%Z ->
   forall h' l',
     process_logits_st h input_ids scores eos_token_id min_length =
     Ok (h', l') ->
     l' = scores /\
     py_setitem (load h scores) eos_token_id NInf = Ok (load h' scores) /\
     forall l, l <> scores -> load h' l = load h l).
Proof.
  intros Hvalid cur_length. split; [|split; [|split]].
  - intros h' l'. apply get_top_k_logits_st_spec.
  - intros Hge. unfold process_logits_st. fold cur_length.
    destruct (Z.ltb_spec cur_length min_length); [lia|]. reflexivity.
  - unfold process_logits_st, default_min_length. fold cur_length.
    destruct (Z.ltb_spec cur_length 0); [unfold cur_length in *; lia|].
    reflexivity.
  - intros Hlt h' l'. unfold process_logits_st. fold cur_length.
    destruct (Z.ltb_spec cur_length min_length); [|lia].
    destruct (py_setitem (load h scores) eos_token_id NInf) as [v|e];
      simpl; [|discriminate].
    intros Hrun. inversion Hrun; subst. split; [reflexivity|]. split.
    + rewrite load_store_same by exact Hvalid. reflexivity.
    + intros l Hl. apply load_store_other, Hl.
Qed.

Lemma filters_and_caller_arrays_witness :
  process_logits_st [[Fin 1; Fin 2]] [5%Z; 6%Z] 0%nat 1 2 =
    Ok ([[Fin 1; Fin 2]], 0%nat) /\
  load [[Fin 1; Fin 3; Fin 2]; [NInf; Fin 3; Fin 2]] 0%nat =
    load [[Fin 1; Fin 3; Fin 2]] 0%nat /\
  load [[Fin 1; NInf]; [Fin 7]] 1%nat = load [[Fin 1; Fin 2]; [Fin 7]] 1%nat.
Proof.
  destruct (filters_and_caller_arrays [[Fin 1; Fin 2]] [5%Z; 6%Z] 0%nat 1 2 2)
    as (_ & Hkeep & _); [simpl; lia|].
  destruct (filters_and_caller_arrays [[Fin 1; Fin 3; Fin 2]] [5%Z] 0%nat
              1 0 2) as (Htop & _); [simpl; lia|].
  destruct (filters_and_caller_arrays [[Fin 1; Fin 2]; [Fin 7]] [5%Z] 0%nat
              1 3 2) as (_ & _ & _ & Hwrite); [simpl; lia|].
  split; [|split].
  - apply Hkeep. simpl. lia.
  - destruct (Htop _ _ (proj1 get_top_k_logits_st_run)) as [_ Hsame].
    apply (Hsame O). simpl. lia.
  - assert (Hlt : (Z.of_nat (length [5%Z]) < 3)%Z) by (simpl; lia).
    destruct (Hwrite Hlt [[Fin 1; NInf]; [Fin 7]] O eq_refl)
      as (_ & _ & Hother).
    apply (Hother 1%nat). lia.
Defined.

(** C5, the claim as it is written, fails for [process_logits]: with
    one token and [min_length = 3] the caller's array [[1, 2]] holds
    [[1, -inf]] after the call, and the array returned is the caller's
    own. *)
Lemma process_logits_overwrites_input :
  process_logits_st [[Fin 1; Fin 2]] [5%Z] 0%nat 1 3 =
    Ok ([[Fin 1; NInf]], 0%nat) /\
  load [[Fin 1; NInf]] 0%nat <> load [[Fin 1; Fin 2]] 0%nat.
Proof.
  split; [reflexivity|]. unfold load. simpl. intros H. inversion H.
Qed.

(** * Further properties of the notebook's functions *)

(** ** Top-K truncation: size of the cut *)

Lemma count_le (p q : float -> bool) (l : list float) :
  (forall x, In x l -> p x = true -> q x = true) ->
  (count p l <= count q l)%nat.
Proof.
  unfold count. induction l as [|a l IH]; simpl; intros H; auto.
  assert (IH' : (length (filter p l) <= length (filter q l))%nat)
    by (apply IH; intros; apply H; auto).
  destruct (p a) eqn:E.
  - rewrite (H a (or_introl eq_refl) E). simpl. lia.
  - destruct (q a); simpl; lia.
Qed.

Lemma count_full (p : float -> bool) (l : list float) :
  count p l = length l -> forall x, In x l -> p x = true.
Proof.
  unfold count. induction l as [|a l IH]; simpl; intros H x Hx; [tauto|].
  pose proof (filter_length_le p l) as Hle.
  destruct (p a) eqn:E; simpl in H; [|lia].
  destruct Hx as [<-|Hx]; auto.
Qed.

Lemma count_map (p : float -> bool) (f : float -> float) (l : list float) :
  count p (map f l) = count (fun x => p (f x)) l.
Proof.
  unfold count. induction l as [|a l IH]; simpl; auto.
  destruct (p (f a)); simpl; rewrite IH; reflexivity.
Qed.

(** A score with fewer than [k] entries above it is at least any score
    with [k'] entries at or above it, when [k <= k']. *)
Lemma order_statistics_le (scores : list float) (k k' : nat) (a b : float) :
  no_nan scores -> In a scores -> In b scores -> (k <= k')%nat ->
  (count (fun s => fltb a s) scores < k)%nat ->
  (k' <= count (fun s => fleb b s) scores)%nat ->
  fle b a.
Proof.
  intros Hnn Ha Hb Hk Hlt Hle.
  unfold no_nan in Hnn. rewrite Forall_forall in Hnn.
  destruct (fltb a b) eqn:E; [|apply fltb_false_fle in E; auto].
  exfalso.
  assert (count (fun s => fleb b s) scores
          <= count (fun s => fltb a s) scores)%nat; [|lia].
  apply count_le. intros c Hc E1. apply fleb_true_fle in E1.
  pose proof (Hnn c Hc).
  destruct a, b, c; simpl in *; try tauto; try discriminate.
  apply Rltb_true in E. apply Rltb_true. lra.
Qed.

Lemma truncate_below_twice (t : float) (scores : list float) :
  truncate_below t (truncate_below t scores) = truncate_below t scores.
Proof.
  unfold truncate_below. rewrite map_map. apply map_ext.
  intros s. destruct (fltb s t) eqn:E; [|rewrite E; reflexivity].
  destruct (fltb NInf t); reflexivity.
Qed.

Lemma truncate_below_no_nan (t : float) (scores : list float) :
  no_nan scores -> no_nan (truncate_below t scores).
Proof.
  intros H. unfold truncate_below. apply Forall_map.
  eapply Forall_impl; [|exact H].
  intros s Hs. simpl. destruct (fltb s t); [discriminate | exact Hs].
Qed.

Lemma clamp_top_k_length (top_k : Z) (l l' : list float) :
  length l = length l' -> clamp_top_k top_k l = clamp_top_k top_k l'.
Proof. intros H. unfold clamp_top_k. rewrite H. reflexivity. Qed.

(** X1. Top-K truncation is idempotent: filtering a filtered row again,
    with the same [top_k], changes nothing. *)
Theorem get_top_k_logits_idempotent (scores out : list float) (top_k : Z) :
  no_nan scores ->
  get_top_k_logits scores top_k = Ok out ->
  get_top_k_logits out top_k = Ok out.
Proof.
  intros Hnn Hrun.
  assert (Hne : scores <> []).
  { intros ->. unfold get_top_k_logits in Hrun.
    replace (Z.to_nat (Z.min (Z.max top_k 1) (Z.of_nat (length (@nil float)))))
      with O in Hrun by (simpl; lia).
    discriminate. }
  destruct (get_top_k_logits_threshold scores top_k Hne Hnn)
    as (t & (Hin & Hge & Hgt) & Hrun').
  rewrite Hrun in Hrun'. inversion Hrun' as [Hout].
  assert (Hlen : length (truncate_below t scores) = length scores)
    by (unfold truncate_below; apply length_map).
  assert (Hne' : truncate_below t scores <> [])
    by (intros E; rewrite E in Hlen; destruct scores; simpl in *; congruence).
  pose proof (truncate_below_no_nan t scores Hnn) as Hnn'.
  destruct (get_top_k_logits_threshold (truncate_below t scores) top_k
              Hne' Hnn') as (t' & Hkth' & Hrun'').
  rewrite (clamp_top_k_length top_k _ scores Hlen) in Hkth'.
  assert (Hkth : is_kth_largest (truncate_below t scores)
                   (Z.to_nat (clamp_top_k top_k scores)) t).
  { unfold truncate_below. repeat split.
    - replace t with (if fltb t t then NInf else t) at 1
        by (rewrite fltb_irrefl; reflexivity).
      apply (in_map (fun s => if fltb s t then NInf else s)), Hin.
    - rewrite count_map. eapply Nat.le_trans; [exact Hge|].
      apply count_le. intros x Hx E.
      destruct (fltb x t) eqn:E'; auto.
      apply fleb_true_fle in E. apply fltb_true_not_fle in E'. tauto.
    - rewrite count_map. eapply Nat.le_lt_trans; [|exact Hgt].
      apply count_le. intros x Hx E.
      destruct (fltb x t); auto.
      destruct t; simpl in E; discriminate. }
  rewrite (is_kth_largest_unique _ _ _ _ Hnn' Hkth' Hkth) in Hrun''.
  rewrite Hrun''. rewrite truncate_below_twice. reflexivity.
Qed.

Lemma get_top_k_logits_idempotent_witness :
  get_top_k_logits [NInf; Fin 3; Fin 4; NInf] 2 =
  Ok [NInf; Fin 3; Fin 4; NInf].
Proof.
  apply (get_top_k_logits_idempotent [Fin 1; Fin 3; Fin 4; Fin 2]).
  - repeat constructor; discriminate.
  - exact get_top_k_logits_run.
Defined.

Lemma get_top_k_logits_nonempty (scores out : list float) (top_k : Z) :
  get_top_k_logits scores top_k = Ok out -> scores <> [].
Proof.
  intros Hrun ->. unfold get_top_k_logits in Hrun.
  replace (Z.to_nat (Z.min (Z.max top_k 1) (Z.of_nat (length (@nil float)))))
    with O in Hrun by (simpl; lia).
  discriminate.
Qed.

Lemma truncate_below_id (t : float) (scores : list float) :
  (forall s, In s scores -> fltb s t = false) ->
  truncate_below t scores = scores.
Proof.
  intros H. unfold truncate_below.
  rewrite <- (map_id scores) at 2. apply map_ext_in.
  intros s Hs. rewrite (H s Hs). reflexivity.
Qed.

(** X2. When [top_k] is at least the length of the row, top-K
    truncation removes nothing: the row is returned as it is. *)
Theorem get_top_k_logits_whole_row (scores : list float) (top_k : Z) :
  scores <> [] -> no_nan scores ->
  (Z.of_nat (length scores) <= top_k)%Z ->
  get_top_k_logits scores top_k = Ok scores.
Proof.
  intros Hne Hnn Hk.
  destruct (get_top_k_logits_threshold scores top_k Hne Hnn)
    as (t & (Hin & Hge & _) & Hrun).
  rewrite Hrun. f_equal. apply truncate_below_id.
  assert (Hk' : Z.to_nat (clamp_top_k top_k scores) = length scores).
  { pose proof (clamp_top_k_range top_k scores Hne).
    unfold clamp_top_k in *. lia. }
  rewrite Hk' in Hge.
  assert (Hall : count (fun s => fleb t s) scores = length scores).
  { pose proof (filter_length_le (fun s => fleb t s) scores).
    unfold count in *. lia. }
  intros s Hs. pose proof (count_full _ _ Hall s Hs) as E. simpl in E.
  apply fleb_true_fle in E.
  destruct (fltb s t) eqn:E'; auto.
  apply fltb_true_not_fle in E'. tauto.
Qed.

Lemma get_top_k_logits_whole_row_witness :
  get_top_k_logits [Fin 1; NInf; Fin 2] 20 = Ok [Fin 1; NInf; Fin 2].
Proof.
  apply get_top_k_logits_whole_row.
  - discriminate.
  - repeat constructor; discriminate.
  - simpl. lia.
Defined.

(** X3. Top-K truncation grows with [top_k]: an entry that survives a
    smaller [top_k] survives every larger one. *)
Theorem get_top_k_logits_monotone (scores out1 out2 : list float)
  (top_k1 top_k2 : Z) (i : nat) (s : float) :
  no_nan scores -> (top_k1 <= top_k2)%Z ->
  get_top_k_logits scores top_k1 = Ok out1 ->
  get_top_k_logits scores top_k2 = Ok out2 ->
  nth_error scores i = Some s ->
  nth_error out1 i = Some s -> s <> NInf ->
  nth_error out2 i = Some s.
Proof.
  intros Hnn Hk Hrun1 Hrun2 Hs Ho1 Hninf.
  pose proof (get_top_k_logits_nonempty _ _ _ Hrun1) as Hne.
  destruct (get_top_k_logits_threshold scores top_k1 Hne Hnn)
    as (t1 & (Hin1 & _ & Hgt1) & Hrun1').
  destruct (get_top_k_logits_threshold scores top_k2 Hne Hnn)
    as (t2 & (Hin2 & Hge2 & _) & Hrun2').
  rewrite Hrun1 in Hrun1'. rewrite Hrun2 in Hrun2'.
  inversion Hrun1'; inversion Hrun2'; subst out1 out2.
  assert (Hle : fle t2 t1).
  { apply (order_statistics_le scores
             (Z.to_nat (clamp_top_k top_k1 scores))
             (Z.to_nat (clamp_top_k top_k2 scores))); auto.
    unfold clamp_top_k. lia. }
  unfold truncate_below in *. rewrite nth_error_map, Hs in *. simpl in *.
  destruct (fltb s t1) eqn:E1; [congruence|].
  destruct (fltb s t2) eqn:E2; [|reflexivity].
  exfalso. apply fltb_true_not_fle in E2. apply E2.
  apply (fle_trans _ _ _ Hle).
  apply fltb_false_fle; auto.
  - unfold no_nan in Hnn. rewrite Forall_forall in Hnn.
    apply Hnn. eapply nth_error_In; eauto.
  - unfold no_nan in Hnn. rewrite Forall_forall in Hnn. auto.
Qed.

Lemma get_top_k_logits_monotone_witness :
  nth_error [Fin 1; Fin 3; Fin 2] 1 = Some (Fin 3).
Proof.
  destruct get_top_k_logits_clamped as [H0 H9].
  apply (get_top_k_logits_monotone [Fin 1; Fin 3; Fin 2]
           [NInf; Fin 3; NInf] [Fin 1; Fin 3; Fin 2] 0 9 1 (Fin 3)).
  - repeat constructor; discriminate.
  - lia.
  - exact H0.
  - exact H9.
  - reflexivity.
  - reflexivity.
  - discriminate.
Defined.

Lemma count_fleb_absent (t : float) (l : list float) :
  no_nan l -> ~ In t l ->
  count (fun s => fleb t s) l = count (fun s => fltb t s) l.
Proof.
  intros Hnn Hnin. apply count_ext_in. intros x Hx.
  unfold no_nan in Hnn. rewrite Forall_forall in Hnn.
  pose proof (Hnn x Hx) as Hxn.
  assert (Hneq : x <> t) by (intros ->; tauto).
  destruct t as [| | |a], x as [| | |b]; simpl; try congruence.
  destruct (Rltb b a) eqn:E1, (Rltb a b) eqn:E2; simpl; auto.
  - apply Rltb_true in E1, E2. lra.
  - apply Rltb_false in E1, E2. exfalso. apply Hneq. f_equal. lra.
Qed.

Lemma count_fleb_nodup (t : float) (l : list float) :
  no_nan l -> NoDup l ->
  (count (fun s => fleb t s) l <= S (count (fun s => fltb t s) l))%nat.
Proof.
  intros Hnn Hnd. induction Hnd as [|a l Ha Hnd IH].
  - unfold count. simpl. lia.
  - inversion Hnn as [|? ? Han Hnn']; subst.
    specialize (IH Hnn').
    change (count (fun s => fleb t s) (a :: l))
      with (count (fun s => fleb t s) ([a] ++ l)).
    change (count (fun s => fltb t s) (a :: l))
      with (count (fun s => fltb t s) ([a] ++ l)).
    rewrite !count_app.
    destruct (fltb t a) eqn:E.
    + assert (count (fun s => fleb t s) [a] <= 1)%nat
        by (unfold count; simpl; destruct (fleb t a); simpl; lia).
      assert (count (fun s => fltb t s) [a] = 1)%nat
        by (unfold count; simpl; rewrite E; reflexivity).
      lia.
    + destruct (fleb t a) eqn:E'.
      * assert (a = t).
        { apply fleb_true_fle in E'. apply fle_antisym; auto.
          apply fltb_false_fle; auto. destruct t; simpl in E'; congruence. }
        subst a. rewrite (count_fleb_absent t l Hnn' Ha).
        unfold count at 1 3. simpl. rewrite E, E'. simpl. lia.
      * unfold count at 1 3. simpl. rewrite E, E'. simpl. lia.
Qed.

Lemma count_finite_truncate (t : float) (l : list float) :
  Forall is_finite l ->
  count is_finiteb (truncate_below t l) = retained t l.
Proof.
  intros H. unfold truncate_below, retained. rewrite count_map.
  apply count_ext_in. intros x Hx. rewrite Forall_forall in H.
  specialize (H x Hx). destruct (fltb x t); simpl; auto.
  destruct x; simpl in *; tauto.
Qed.

(** X4. On a row of pairwise distinct real scores, top-K truncation
    keeps exactly [top_k] entries (after clamping) and turns all the
    others into minus infinity. *)
Theorem get_top_k_logits_exact (scores : list float) (top_k : Z) :
  scores <> [] -> Forall is_finite scores -> NoDup scores ->
  exists out,
    get_top_k_logits scores top_k = Ok out /\
    count is_finiteb out = Z.to_nat (clamp_top_k top_k scores) /\
    count (fun s => negb (is_finiteb s)) out =
    (length scores - Z.to_nat (clamp_top_k top_k scores))%nat.
Proof.
  intros Hne Hfin Hnd.
  assert (Hnn : no_nan scores).
  { eapply Forall_impl; [|exact Hfin].
    intros a Ha. destruct a; simpl in Ha; congruence. }
  destruct (get_top_k_logits_threshold scores top_k Hne Hnn)
    as (t & (Hin & Hge & Hgt) & Hrun).
  exists (truncate_below t scores). split; [exact Hrun|].
  assert (Ht : t <> NaN)
    by (unfold no_nan in Hnn; rewrite Forall_forall in Hnn; auto).
  assert (Hk : count is_finiteb (truncate_below t scores) =
               Z.to_nat (clamp_top_k top_k scores)).
  { rewrite count_finite_truncate by exact Hfin.
    rewrite retained_count by auto.
    pose proof (count_fleb_nodup t scores Hnn Hnd). lia. }
  split; [exact Hk|].
  assert (Hsplit : forall l,
             (count is_finiteb l + count (fun s => negb (is_finiteb s)) l
              = length l)%nat).
  { intros l. unfold count. induction l as [|a l IH]; simpl; auto.
    destruct (is_finiteb a); simpl; lia. }
  specialize (Hsplit (truncate_below t scores)).
  unfold truncate_below in Hsplit at 3. rewrite length_map in Hsplit. lia.
Qed.

Lemma get_top_k_logits_exact_witness :
  exists out,
    get_top_k_logits [Fin 1; Fin 3; Fin 4; Fin 2] 2 = Ok out /\
    count is_finiteb out = 2%nat.
Proof.
  destruct (get_top_k_logits_exact [Fin 1; Fin 3; Fin 4; Fin 2] 2)
    as (out & Hrun & Hk & _).
  - discriminate.
  - repeat constructor.
  - repeat constructor; simpl; intros H;
      repeat (destruct H as [H|H]; [inversion H; lra|]); exact H.
  - exists out. split; [exact Hrun|]. rewrite Hk. reflexivity.
Defined.

(** ** Softmax keeps the order of the scores *)

Lemma softmax_entries (x : list float) :
  logit_row x ->
  exists ps mx S,
    softmax x = Ok (map Fin ps) /\ 0 < S /\
    (forall i, nth_error x i = Some NInf -> nth_error ps i = Some (0 / S)) /\
    (forall i r, nth_error x i = Some (Fin r) ->
       nth_error ps i = Some (exp (r - mx) / S)).
Proof.
  intros Hrow.
  destruct (np_max_logit_row x Hrow) as (mx & Hmax & Hin & _).
  destruct Hrow as [Hlog _].
  destruct (exp_row x mx Hlog) as (es & Heq & Hpos & Hinf & Hfin).
  assert (Hs : 1 <= Rsum es).
  { apply In_nth_error in Hin. destruct Hin as [i Hi].
    apply Hfin in Hi. apply nth_error_In in Hi.
    replace (mx - mx) with 0 in Hi by lra. rewrite exp_0 in Hi.
    apply Rsum_In_le; auto. }
  exists (map (fun r => r / Rsum es) es), mx, (Rsum es).
  split.
  { unfold softmax. rewrite Hmax. simpl. rewrite Heq, np_sum_Fin.
    rewrite map_fdiv_Fin by lra. reflexivity. }
  split; [lra|]. split.
  - intros i Hi. rewrite nth_error_map, (Hinf i Hi). reflexivity.
  - intros i r Hi. rewrite nth_error_map, (Hfin i r Hi). reflexivity.
Qed.

(** X5. On a row of logits with one real score at least, softmax keeps
    the order: a position with a score that is not larger gets a
    probability that is not larger, so that equal scores get equal
    probabilities and a largest score gets a largest probability. *)
Theorem softmax_monotone (x : list float) (i j : nat) (a b : float) :
  logit_row x ->
  nth_error x i = Some a -> nth_error x j = Some b -> fle a b ->
  exists p pi pj,
    softmax x = Ok p /\
    nth_error p i = Some (Fin pi) /\ nth_error p j = Some (Fin pj) /\
    pi <= pj.
Proof.
  intros Hrow Hi Hj Hle.
  destruct (softmax_entries x Hrow) as (ps & mx & S & Hrun & HS & Hinf & Hfin).
  assert (Hlog : Forall is_logit x) by apply Hrow.
  rewrite Forall_forall in Hlog.
  pose proof (Hlog a (nth_error_In _ _ Hi)) as Ha.
  pose proof (Hlog b (nth_error_In _ _ Hj)) as Hb.
  assert (Hinv : 0 < / S) by (apply Rinv_0_lt_compat, HS).
  destruct a as [| | |ra], b as [| | |rb]; simpl in Ha, Hb, Hle; try tauto.
  - exists (map Fin ps), (0 / S), (0 / S). rewrite Hrun, !nth_error_map.
    rewrite (Hinf i Hi), (Hinf j Hj). simpl. repeat split; auto. lra.
  - exists (map Fin ps), (0 / S), (exp (rb - mx) / S).
    rewrite Hrun, !nth_error_map.
    rewrite (Hinf i Hi), (Hfin j rb Hj). simpl. repeat split; auto.
    pose proof (exp_pos (rb - mx)). unfold Rdiv. nra.
  - exists (map Fin ps), (exp (ra - mx) / S), (exp (rb - mx) / S).
    rewrite Hrun, !nth_error_map.
    rewrite (Hfin i ra Hi), (Hfin j rb Hj). simpl. repeat split; auto.
    assert (exp (ra - mx) <= exp (rb - mx)).
    { destruct Hle as [Hlt|Heq].
      - left. apply exp_increasing. lra.
      - right. f_equal. lra. }
    unfold Rdiv. nra.
Qed.

Lemma softmax_monotone_witness :
  exists p pi pj,
    softmax [Fin 2; NInf; Fin 1] = Ok p /\
    nth_error p 2 = Some (Fin pi) /\ nth_error p 0 = Some (Fin pj) /\
    pi <= pj.
Proof.
  apply (softmax_monotone [Fin 2; NInf; Fin 1] 2 0 (Fin 1) (Fin 2)).
  - split; [repeat constructor | apply Exists_cons_hd; exact I].
  - reflexivity.
  - reflexivity.
  - simpl. lra.
Defined.

(** ** Rows on which an iteration fails *)

Lemma fold_fmax_nan (l : list float) : fold_left fmax l NaN = NaN.
Proof. induction l as [|b l IH]; simpl; auto. Qed.

Lemma fold_fmax_In_nan (l : list float) (a : float) :
  In NaN l -> fold_left fmax l a = NaN.
Proof.
  revert a. induction l as [|b l IH]; simpl; intros a H; [tauto|].
  destruct H as [->|H].
  - replace (fmax a NaN) with NaN by (destruct a; reflexivity).
    apply fold_fmax_nan.
  - apply IH, H.
Qed.

Lemma np_max_nan (l : list float) : In NaN l -> np_max l = Ok NaN.
Proof.
  destruct l as [|a l]; simpl; [tauto|]. intros [->|H].
  - rewrite fold_fmax_nan. reflexivity.
  - rewrite fold_fmax_In_nan by exact H. reflexivity.
Qed.

Lemma fold_fadd_nan (l : list float) : fold_left fadd l NaN = NaN.
Proof. induction l as [|b l IH]; simpl; auto. Qed.

Lemma fold_fadd_In_nan (l : list float) (a : float) :
  In NaN l -> fold_left fadd l a = NaN.
Proof.
  revert a. induction l as [|b l IH]; simpl; intros a H; [tauto|].
  destruct H as [->|H].
  - replace (fadd a NaN) with NaN by (destruct a; reflexivity).
    apply fold_fadd_nan.
  - apply IH, H.
Qed.

Lemma np_sum_nan (l : list float) : In NaN l -> np_sum l = NaN.
Proof. apply fold_fadd_In_nan. Qed.

Lemma choice_nan (p : list float) (u : R) :
  np_sum p = NaN -> choice p u = Err ValueError.
Proof.
  intros H. destruct p as [|a p]; [reflexivity|].
  rewrite choice_nonempty by discriminate. rewrite H. reflexivity.
Qed.

(** When the sum of the exponentials is NaN, every probability is. *)
Lemma softmax_nan (x : list float) (m : float) (v : float) :
  np_max x = Ok m -> In v x -> fexp (fsub v m) = NaN ->
  exists p, softmax x = Ok p /\ np_sum p = NaN.
Proof.
  intros Hmax Hv Hnan. unfold softmax. rewrite Hmax. simpl.
  assert (Hsum : np_sum (map (fun v => fexp (fsub v m)) x) = NaN).
  { apply np_sum_nan. rewrite <- Hnan.
    apply (in_map (fun v => fexp (fsub v m))), Hv. }
  rewrite Hsum. eexists. split; [reflexivity|].
  apply np_sum_nan. rewrite map_map.
  replace NaN with ((fun v => fdiv (fexp (fsub v m)) NaN) v) at 1.
  - apply (in_map (fun v => fdiv (fexp (fsub v m)) NaN)), Hv.
  - simpl. destruct (fexp (fsub v m)); reflexivity.
Qed.

Lemma row_cases (row : list float) :
  row = [] \/ bad_row row \/ logit_row row.
Proof.
  induction row as [|a l IH]; [auto|]. right.
  assert (Hnn : l = [] \/ logit_row l \/
                (l <> [] /\ Forall (fun a => a = NInf) l) -> no_nan l).
  { intros [->|[[H _]|[_ H]]].
    - constructor.
    - apply logits_no_nan, H.
    - eapply Forall_impl; [|exact H]. intros x ->. discriminate. }
  destruct IH as [->|[Hbad|Hlog]].
  - destruct a.
    + left. apply bad_nan. simpl. auto.
    + left. apply bad_ninf; [discriminate | repeat constructor].
    + left. apply bad_pinf; [repeat constructor; discriminate | simpl; auto].
    + right. split; [repeat constructor | apply Exists_cons_hd; exact I].
  - destruct Hbad as [row H | row Hn H | row Hne H].
    + left. apply bad_nan. simpl. auto.
    + left. destruct a.
      * apply bad_nan. simpl. auto.
      * apply bad_pinf; [constructor; [discriminate|auto] | simpl; auto].
      * apply bad_pinf; [constructor; [discriminate|auto] | simpl; auto].
      * apply bad_pinf; [constructor; [discriminate|auto] | simpl; auto].
    + destruct a.
      * left. apply bad_nan. simpl. auto.
      * left. apply bad_ninf; [discriminate | constructor; auto].
      * left. apply bad_pinf; [|simpl; auto].
        constructor; [discriminate|]. apply Hnn. auto.
      * right. split.
        -- constructor; [exact I|].
           eapply Forall_impl; [|exact H]. intros x ->. exact I.
        -- apply Exists_cons_hd. exact I.
  - destruct a.
    + left. apply bad_nan. simpl. auto.
    + right. destruct Hlog as [H1 H2]. split.
      * constructor; [exact I | exact H1].
      * apply Exists_cons_tl, H2.
    + left. apply bad_pinf; [|simpl; auto].
      constructor; [discriminate|]. apply Hnn. auto.
    + right. destruct Hlog as [H1 H2]. split.
      * constructor; [exact I | exact H1].
      * apply Exists_cons_hd. exact I.
Qed.

Lemma bad_row_not_logit_row (row : list float) :
  bad_row row -> ~ logit_row row.
Proof.
  intros Hbad [Hlog Hfin]. rewrite Forall_forall in Hlog.
  destruct Hbad as [row H | row _ H | row _ H].
  - apply (Hlog NaN H).
  - apply (Hlog PInf H).
  - apply Exists_exists in Hfin. destruct Hfin as (a & Ha & Hf).
    rewrite Forall_forall in H. rewrite (H a Ha) in Hf. exact Hf.
Qed.

Lemma get_top_k_logits_shape (row : list float) (top_k : Z) :
  row <> [] ->
  exists t, get_top_k_logits row top_k = Ok (truncate_below t row).
Proof.
  intros Hne. unfold get_top_k_logits.
  pose proof (clamp_top_k_range top_k row Hne) as Hk.
  unfold clamp_top_k in Hk.
  destruct (np_min
              (map fneg
                 (firstn
                    (Z.to_nat
                       (Z.min (Z.max top_k 1) (Z.of_nat (length row))))
                    (np_sort (map fneg row))))) as [t|e] eqn:E.
  - exists t. simpl. rewrite filled_map. reflexivity.
  - exfalso. unfold np_min in E.
    destruct (map fneg _) as [|a l] eqn:E'; [|discriminate].
    apply (f_equal (@length _)) in E'.
    rewrite length_map, length_firstn in E'.
    rewrite (Permutation_length (np_sort_perm _)), length_map in E'.
    simpl in E'. lia.
Qed.

Lemma truncate_below_bad (t : float) (row : list float) :
  bad_row row -> bad_row (truncate_below t row).
Proof.
  intros [row' H | row' Hn H | row' Hne H]; unfold truncate_below.
  - apply bad_nan.
    replace NaN with ((fun s => if fltb s t then NInf else s) NaN)
      by reflexivity.
    apply (in_map (fun s => if fltb s t then NInf else s)), H.
  - apply bad_pinf; [apply truncate_below_no_nan, Hn|].
    replace PInf with ((fun s => if fltb s t then NInf else s) PInf)
      by (destruct t; reflexivity).
    apply (in_map (fun s => if fltb s t then NInf else s)), H.
  - apply bad_ninf.
    + destruct row'; [congruence | discriminate].
    + apply Forall_map. eapply Forall_impl; [|exact H].
      intros a ->. destruct (fltb NInf t); reflexivity.
Qed.

Lemma softmax_bad (x : list float) :
  bad_row x -> exists p, softmax x = Ok p /\ np_sum p = NaN.
Proof.
  intros [row H | row Hn H | row Hne H].
  - apply (softmax_nan row NaN NaN);
      [apply np_max_nan, H | exact H | reflexivity].
  - assert (Hne : row <> []) by (intros ->; destruct H).
    destruct (np_max_spec row Hne Hn) as (m & Hm & Hin & Hle).
    apply (softmax_nan row m PInf); auto.
    specialize (Hle PInf H). destruct m; simpl in Hle; tauto.
  - assert (Hn : no_nan row)
      by (eapply Forall_impl; [|exact H]; intros a ->; discriminate).
    destruct (np_max_spec row Hne Hn) as (m & Hm & Hin & _).
    rewrite Forall_forall in H. pose proof (H m Hin). subst m.
    apply (softmax_nan row NInf NInf); auto.
Qed.

(** [next_token] is the selection of the row, [process_logits] with the
    default [min_length], and [sample] with [top_k = 20]. *)
Lemma next_token_sample (outputs : list (list float)) (input_ids : list Z)
  (eos_token_id : Z) (u : R) :
  next_token outputs input_ids eos_token_id u =
  (row <- py_index outputs (Z.of_nat (length input_ids) - 1) ;;
   scores <- process_logits input_ids row eos_token_id default_min_length ;;
   sample scores top_k_default u).
Proof. reflexivity. Qed.

Lemma sample_bad_row (row : list float) (top_k : Z) (u : R) :
  ~ logit_row row -> sample row top_k u = Err ValueError.
Proof.
  intros Hbad. unfold sample.
  destruct (row_cases row) as [->|[H|H]]; [| |tauto].
  - unfold get_top_k_logits.
    replace (Z.to_nat
               (Z.min (Z.max top_k 1) (Z.of_nat (length (@nil float)))))
      with O by (simpl; lia).
    reflexivity.
  - assert (Hne : row <> []).
    { destruct H as [row H | row _ H | row H _]; auto;
        intros ->; destruct H. }
    destruct (get_top_k_logits_shape row top_k Hne) as [t Hrun].
    rewrite Hrun. simpl.
    destruct (softmax_bad _ (truncate_below_bad t row H)) as (p & Hp & Hs).
    rewrite Hp. simpl. apply choice_nan, Hs.
Qed.

(** X6. Filtering, softmax and the draw succeed exactly on the rows of
    real scores and minus infinities that hold a real score: on such a
    row and a sample of [[0, 1)] they return a position of the row; on
    any other row (empty, with a NaN, with a plus infinity, or all minus
    infinity) they raise ValueError, whatever [top_k] and the sample. *)
Theorem sample_succeeds_iff (row : list float) (top_k : Z) (u : R) :
  (logit_row row -> 0 <= u < 1 ->
   exists i, sample row top_k u = Ok (Z.of_nat i) /\ (i < length row)%nat) /\
  (~ logit_row row -> sample row top_k u = Err ValueError).
Proof.
  split.
  - intros Hrow Hu.
    destruct (sample_row row top_k u Hrow Hu) as (i & r & Hrun & Hn).
    exists i. split; [exact Hrun|]. apply nth_error_Some. congruence.
  - apply sample_bad_row.
Qed.

Lemma sample_succeeds_iff_witness :
  (exists i, sample [Fin 2; NInf; Fin 1] 20 (1 / 2) = Ok (Z.of_nat i) /\
             (i < 3)%nat) /\
  sample [Fin 2; NaN; Fin 1] 20 (1 / 2) = Err ValueError /\
  sample [NInf; NInf] 20 (1 / 2) = Err ValueError.
Proof.
  destruct (sample_succeeds_iff [Fin 2; NInf; Fin 1] 20 (1 / 2)) as [H1 _].
  destruct (sample_succeeds_iff [Fin 2; NaN; Fin 1] 20 (1 / 2)) as [_ H2].
  destruct (sample_succeeds_iff [NInf; NInf] 20 (1 / 2)) as [_ H3].
  split; [|split].
  - apply H1; [|lra].
    split; [repeat constructor | apply Exists_cons_hd; exact I].
  - apply H2. intros [H _]. inversion H as [|? ? _ H'].
    inversion H' as [|? ? F _]. exact F.
  - apply H3. intros [_ H]. inversion H as [? ? F|? ? H']; [exact F|].
    inversion H' as [? ? F|? ? H'']; [exact F | inversion H''].
Defined.

(** ** What the draw can return *)

(** X7. The token drawn from a row of logits is one of the [top_k]
    best: its score is real, and fewer than [top_k] entries of the row
    (after clamping) have a strictly larger score. *)
Theorem sample_in_top_k (row : list float) (top_k : Z) (u : R) :
  logit_row row -> 0 <= u < 1 ->
  exists i r,
    sample row top_k u = Ok (Z.of_nat i) /\
    nth_error row i = Some (Fin r) /\
    (count (fun s => fltb (Fin r) s) row
     < Z.to_nat (clamp_top_k top_k row))%nat.
Proof.
  intros Hrow Hu.
  pose proof (logit_row_nonempty row Hrow) as Hne.
  assert (Hnn : no_nan row) by (apply logits_no_nan, Hrow).
  destruct (get_top_k_logits_threshold row top_k Hne Hnn)
    as (t & (Hin & _ & Hgt) & Hk).
  destruct (get_top_k_logits_logit_row row top_k Hrow)
    as (out & Hk' & Hout & _ & _).
  rewrite Hk in Hk'. inversion Hk'; subst out.
  unfold sample. rewrite Hk. simpl.
  destruct (softmax_logit_row _ Hout)
    as (ps & Hsm & Hlps & Hpos & Hsum & Hinf & _).
  assert (Hnep : map Fin ps <> []).
  { pose proof (logit_row_nonempty _ Hout) as Hneo.
    intros E. apply Hneo. apply length_zero_iff_nil.
    rewrite <- Hlps. apply (f_equal (@length _)) in E.
    rewrite length_map in E. exact E. }
  assert (Hd : is_distribution (map Fin ps)).
  { split; [apply Forall_is_prob_Fin, Hpos|].
    rewrite np_sum_Fin, Hsum. reflexivity. }
  destruct (choice_spec (map Fin ps) u Hnep Hd Hu) as (i & q & Hc & Hn & Hq).
  rewrite Hsm. simpl. rewrite Hc.
  rewrite nth_error_map in Hn.
  destruct (nth_error ps i) as [q'|] eqn:Ei; simpl in Hn; [|discriminate].
  inversion Hn; subst q'.
  assert (Hi : (i < length (truncate_below t row))%nat)
    by (rewrite <- Hlps; apply nth_error_Some; congruence).
  destruct (nth_error (truncate_below t row) i) as [s|] eqn:Eo;
    [|apply nth_error_None in Eo; lia].
  destruct Hout as [Hlog _]. rewrite Forall_forall in Hlog.
  pose proof (Hlog s (nth_error_In _ _ Eo)) as Hs.
  destruct s as [| | |r]; simpl in Hs; try tauto.
  - rewrite (Hinf i Eo) in Ei. inversion Ei. lra.
  - apply truncate_below_nth in Eo. destruct Eo as [Hr Hkeep].
    exists i, r. split; [reflexivity|]. split; [exact Hr|].
    eapply Nat.le_lt_trans; [|exact Hgt].
    apply count_le. intros x Hx E.
    unfold no_nan in Hnn. rewrite Forall_forall in Hnn.
    pose proof (Hnn x Hx). pose proof (Hnn t Hin).
    destruct t, x; simpl in *; try congruence.
    apply Rltb_true in E. apply Rltb_false in Hkeep. apply Rltb_true. lra.
Qed.

Lemma sample_in_top_k_witness :
  exists i r,
    sample [Fin 2; NInf; Fin 1] 1 (1 / 2) = Ok (Z.of_nat i) /\
    nth_error [Fin 2; NInf; Fin 1] i = Some (Fin r) /\
    (count (fun s => fltb (Fin r) s) [Fin 2; NInf; Fin 1] < 1)%nat.
Proof.
  apply (sample_in_top_k [Fin 2; NInf; Fin 1] 1 (1 / 2)).
  - split; [repeat constructor | apply Exists_cons_hd; exact I].
  - lra.
Defined.

Lemma set_nth_Forall {A : Type} (P : A -> Prop) (l : list A) (n : nat)
  (a : A) :
  Forall P l -> P a -> Forall P (set_nth l n a).
Proof.
  intros Hl Ha. revert n.
  induction Hl as [|b l Hb Hl IH]; intros [|n]; simpl; auto.
Qed.

(** X8. Minimum-length suppression does what it is there for: while
    the sequence is shorter than [min_length], [process_logits] followed
    by top-K truncation, softmax and the draw never returns
    [eos_token_id], provided another token has a real score. *)
Theorem suppressed_eos_never_drawn (input_ids : list Z) (row : list float)
  (eos_token_id min_length top_k : Z) (u : R) (j : nat) (r : R) :
  Forall is_logit row ->
  (0 <= eos_token_id < Z.of_nat (length row))%Z ->
  (Z.of_nat (length input_ids) < min_length)%Z ->
  nth_error row j = Some (Fin r) -> Z.of_nat j <> eos_token_id ->
  0 <= u < 1 ->
  exists tok,
    (scores <- process_logits input_ids row eos_token_id min_length ;;
     sample scores top_k u) = Ok tok /\
    tok <> eos_token_id /\ (0 <= tok < Z.of_nat (length row))%Z.
Proof.
  intros Hlog Heos Hlen Hj Hne Hu.
  unfold process_logits.
  destruct (Z.ltb_spec (Z.of_nat (length input_ids)) min_length); [|lia].
  rewrite py_setitem_in_range by exact Heos. simpl.
  set (row' := set_nth row (Z.to_nat eos_token_id) NInf).
  assert (Hrow' : logit_row row').
  { split.
    - apply set_nth_Forall; [exact Hlog | exact I].
    - apply Exists_exists. exists (Fin r). split; [|exact I].
      apply (nth_error_In _ j). unfold row'.
      rewrite set_nth_other by lia. exact Hj. }
  destruct (sample_row row' top_k u Hrow' Hu) as (i & q & Hrun & Hn).
  exists (Z.of_nat i). split; [exact Hrun|].
  assert (Hi : (i < length row)%nat).
  { unfold row' in Hn. rewrite <- (set_nth_length row (Z.to_nat eos_token_id)
                                   NInf).
    apply nth_error_Some. congruence. }
  split; [|lia].
  intros E. unfold row' in Hn.
  rewrite <- E, Nat2Z.id in Hn. rewrite set_nth_same in Hn by exact Hi.
  discriminate.
Qed.

Lemma suppressed_eos_never_drawn_witness :
  exists tok,
    (scores <- process_logits [5%Z] [Fin 1; Fin 2; Fin 9] 2 3 ;;
     sample scores 20 (1 / 2)) = Ok tok /\
    tok <> 2%Z /\ (0 <= tok < 3)%Z.
Proof.
  apply (suppressed_eos_never_drawn [5%Z] [Fin 1; Fin 2; Fin 9] 2 3 20
           (1 / 2) 0 1).
  - repeat constructor.
  - simpl. lia.
  - simpl. lia.
  - reflexivity.
  - simpl. lia.
  - lra.
Defined.

(** ** What a run appends and what it asks the model *)

Lemma favoring_world_run_at_max :
  run (favoring_world 51 7 (fun _ => 0%R)) 1 [5; 9; 2]%Z 3 50 =
    ([[5; 9; 2]%Z], Returned [5; 9; 2]%Z).
Proof.
  unfold run. rewrite generate_sequence_unfold.
  rewrite favoring_world_sampled; [reflexivity | intros; lra | simpl; lia].
Qed.

Lemma favoring_world_run_fill :
  run (favoring_world 51 7 (fun _ => 0%R)) 3 [5; 9; 2]%Z 5 50 =
    ([[5; 9; 2; 50; 50]; [5; 9; 2; 7; 50]; [5; 9; 2; 7; 7]]%Z,
     Returned [5; 9; 2; 7; 7]%Z).
Proof.
  unfold run.
  do 3 (rewrite generate_sequence_unfold;
        rewrite favoring_world_sampled;
        [cbn [length Z.of_nat Z.eqb Pos.eqb Pos.of_succ_nat Pos.succ orb]
        | intros; lra | simpl; lia]).
  reflexivity.
Qed.

(** X9. Whatever the model and the generator do, the tokens that a run
    appends to the prompt never include [eos_token_id]. *)
Theorem generate_sequence_never_appends_eos (w : world) (fuel : nat)
  (calls calls' : list (list Z)) (input_ids out : list Z)
  (max_sequence_length eos_token_id : Z) :
  generate_sequence w fuel calls input_ids max_sequence_length
    eos_token_id = (calls', Returned out) ->
  exists suffix, out = input_ids ++ suffix /\ ~ In eos_token_id suffix.
Proof.
  revert calls input_ids.
  induction fuel as [|fuel IH]; intros calls ids.
  - simpl. discriminate.
  - rewrite generate_sequence_unfold.
    destruct (sampled_token w calls ids max_sequence_length eos_token_id)
      as [tok|e]; [|discriminate].
    destruct (Z.eqb_spec (Z.of_nat (length ids)) max_sequence_length)
      as [E|E]; simpl.
    + intros H. inversion H; subst. exists []. rewrite app_nil_r. auto.
    + destruct (Z.eqb_spec tok eos_token_id) as [E'|E'].
      * intros H. inversion H; subst. exists []. rewrite app_nil_r. auto.
      * intros H. apply IH in H. destruct H as (suffix & -> & Hnin).
        exists (tok :: suffix). rewrite <- app_assoc. split; [reflexivity|].
        simpl. intros [H|H]; [congruence | tauto].
Qed.

Lemma generate_sequence_never_appends_eos_witness :
  exists suffix,
    [5; 9; 2; 7; 7]%Z = [5; 9; 2]%Z ++ suffix /\ ~ In 50%Z suffix.
Proof.
  exact (generate_sequence_never_appends_eos _ _ _ _ _ _ _ _
           favoring_world_run_fill).
Defined.

Lemma padded_length (ids : list Z) (max_sequence_length eos_token_id : Z) :
  Z.of_nat (length (padded ids max_sequence_length eos_token_id)) =
  Z.max (Z.of_nat (length ids)) max_sequence_length.
Proof. unfold padded. rewrite length_app, repeat_length. lia. Qed.

Lemma generate_sequence_trace (w : world)
  (max_sequence_length eos_token_id : Z) (fuel : nat) :
  forall calls input_ids calls' out,
    generate_sequence w fuel calls input_ids max_sequence_length
      eos_token_id = (calls', Returned out) ->
    calls' =
    calls ++
    map (fun n => padded (firstn n out) max_sequence_length eos_token_id)
      (seq (length input_ids) (S (length out - length input_ids))).
Proof.
  induction fuel as [|fuel IH]; intros calls ids calls' out.
  - simpl. discriminate.
  - rewrite generate_sequence_unfold.
    destruct (sampled_token w calls ids max_sequence_length eos_token_id)
      as [tok|e]; [|discriminate].
    destruct ((Z.of_nat (length ids) =? max_sequence_length)
              || (tok =? eos_token_id))%Z.
    + intros H. inversion H; subst.
      rewrite Nat.sub_diag. simpl. rewrite firstn_all. reflexivity.
    + intros H.
      pose proof (generate_sequence_extends _ _ _ _ _ _ _ _ H)
        as [[suffix Hout] _].
      apply IH in H. rewrite H. subst out.
      rewrite <- !app_assoc. f_equal.
      rewrite !length_app. simpl length.
      replace (length ids + (1 + length suffix) - length ids)%nat
        with (S (length suffix)) by lia.
      replace (length ids + (1 + length suffix) - (length ids + 1))%nat
        with (length suffix) by lia.
      replace (length ids + 1)%nat with (S (length ids)) by lia.
      cbn [seq map app]. f_equal.
      rewrite firstn_app, Nat.sub_diag, firstn_all. simpl.
      rewrite app_nil_r. reflexivity.
Qed.

(** X10. In a run that returns, from a prompt of at most
    [max_sequence_length] tokens, the model is called once for each
    appended token and once more; the call number [n] is on the prompt
    and the first [n] appended tokens, padded with [eos_token_id]; and
    every input of the model has exactly [max_sequence_length]
    tokens. *)
Theorem run_model_inputs (w : world) (fuel : nat) (prompt_tokens out : list Z)
  (calls : list (list Z)) (max_sequence_length eos_token_id : Z) :
  (Z.of_nat (length prompt_tokens) <= max_sequence_length)%Z ->
  run w fuel prompt_tokens max_sequence_length eos_token_id =
    (calls, Returned out) ->
  length calls = S (length out - length prompt_tokens) /\
  (forall n, (n <= length out - length prompt_tokens)%nat ->
     nth_error calls n =
     Some (padded (firstn (length prompt_tokens + n) out)
             max_sequence_length eos_token_id)) /\
  Forall (fun x => Z.of_nat (length x) = max_sequence_length) calls.
Proof.
  intros Hlen Hrun. unfold run in Hrun.
  pose proof (generate_sequence_bounded _ _ _ _ _ _ _ _ Hlen Hrun) as Hmax.
  pose proof (generate_sequence_extends _ _ _ _ _ _ _ _ Hrun)
    as [[suffix Hout] _].
  apply generate_sequence_trace in Hrun. rewrite app_nil_l in Hrun.
  subst calls.
  split; [|split].
  - rewrite length_map, length_seq. reflexivity.
  - intros n Hn. rewrite nth_error_map.
    rewrite nth_error_seq.
    destruct (Nat.ltb_spec n (S (length out - length prompt_tokens)));
      [reflexivity | lia].
  - apply Forall_map. apply Forall_forall. intros n Hn.
    apply in_seq in Hn. rewrite padded_length.
    assert (length (firstn n out) = n).
    { rewrite length_firstn. subst out. rewrite length_app in *. lia. }
    subst out. rewrite length_app in *. lia.
Qed.

Lemma run_model_inputs_witness :
  length [[5; 9; 2; 50; 50]; [5; 9; 2; 7; 50]; [5; 9; 2; 7; 7]]%Z =
    S (length [5; 9; 2; 7; 7]%Z - length [5; 9; 2]%Z) /\
  Forall (fun x => Z.of_nat (length x) = 5%Z)
    [[5; 9; 2; 50; 50]; [5; 9; 2; 7; 50]; [5; 9; 2; 7; 7]]%Z.
Proof.
  destruct (run_model_inputs (favoring_world 51 7 (fun _ => 0%R)) 3
              [5; 9; 2]%Z [5; 9; 2; 7; 7]%Z
              [[5; 9; 2; 50; 50]; [5; 9; 2; 7; 50]; [5; 9; 2; 7; 7]]%Z 5 50)
    as (Hn & _ & Hall).
  - simpl. lia.
  - exact favoring_world_run_fill.
  - split; [exact Hn | exact Hall].
Defined.

(** ** Why a run stops, and when it does not *)

(** X11. A run from at most [max_sequence_length] tokens in which no
    iteration samples [eos_token_id] can only return a sequence of
    exactly [max_sequence_length] tokens. *)
Theorem generate_sequence_fills (w : world) (fuel : nat)
  (calls calls' : list (list Z)) (input_ids out : list Z)
  (max_sequence_length eos_token_id : Z) :
  (forall calls ids,
     sampled_token w calls ids max_sequence_length eos_token_id <>
     Ok eos_token_id) ->
  (Z.of_nat (length input_ids) <= max_sequence_length)%Z ->
  generate_sequence w fuel calls input_ids max_sequence_length
    eos_token_id = (calls', Returned out) ->
  Z.of_nat (length out) = max_sequence_length.
Proof.
  intros Hnever. revert calls input_ids.
  induction fuel as [|fuel IH]; intros calls ids Hlen.
  - simpl. discriminate.
  - rewrite generate_sequence_unfold.
    pose proof (Hnever calls ids) as Hne.
    destruct (sampled_token w calls ids max_sequence_length eos_token_id)
      as [tok|e]; [|discriminate].
    destruct (Z.eqb_spec (Z.of_nat (length ids)) max_sequence_length)
      as [E|E]; simpl.
    + intros H. inversion H; subst. reflexivity.
    + destruct (Z.eqb_spec tok eos_token_id) as [E'|E']; [congruence|].
      apply IH. rewrite length_app. simpl. lia.
Qed.

Lemma generate_sequence_fills_witness :
  Z.of_nat (length [5; 9; 2; 7; 7]%Z) = 5%Z.
Proof.
  apply (generate_sequence_fills (favoring_world 51 7 (fun _ => 0%R)) 3 []
           [[5; 9; 2; 50; 50]; [5; 9; 2; 7; 50]; [5; 9; 2; 7; 7]]%Z
           [5; 9; 2]%Z [5; 9; 2; 7; 7]%Z 5 50).
  - intros calls ids.
    rewrite (favoring_world_sampled 51 7); [discriminate | intros; lra | lia].
  - simpl. lia.
  - exact favoring_world_run_fill.
Defined.

(** X12. A prompt longer than [max_sequence_length] is never stopped by
    its length: when every iteration samples a token other than
    [eos_token_id], the loop does not end; after any number [fuel] of
    iterations it is still running and has called the model [fuel]
    times. *)
Theorem generate_sequence_long_prompt_diverges (w : world) (fuel : nat)
  (calls : list (list Z)) (input_ids : list Z)
  (max_sequence_length eos_token_id : Z) :
  (forall calls ids, exists tok,
     sampled_token w calls ids max_sequence_length eos_token_id = Ok tok /\
     tok <> eos_token_id) ->
  (max_sequence_length < Z.of_nat (length input_ids))%Z ->
  snd (generate_sequence w fuel calls input_ids max_sequence_length
         eos_token_id) = OutOfFuel /\
  length (fst (generate_sequence w fuel calls input_ids max_sequence_length
                 eos_token_id)) = (length calls + fuel)%nat.
Proof.
  intros Hpick. revert calls input_ids.
  induction fuel as [|fuel IH]; intros calls ids Hlen.
  - simpl. split; [reflexivity | lia].
  - rewrite generate_sequence_unfold.
    destruct (Hpick calls ids) as (tok & -> & Hne).
    destruct (Z.eqb_spec (Z.of_nat (length ids)) max_sequence_length)
      as [E|E]; [lia|].
    destruct (Z.eqb_spec tok eos_token_id) as [E'|E']; [congruence|].
    simpl.
    destruct (IH (calls ++ [padded ids max_sequence_length eos_token_id])
                (ids ++ [tok])) as [H1 H2].
    + rewrite length_app. simpl. lia.
    + split; [exact H1|]. rewrite H2, length_app. simpl. lia.
Qed.

Lemma generate_sequence_long_prompt_diverges_witness :
  snd (run (favoring_world 51 7 (fun _ => 0%R)) 1000 [5; 9; 2; 4]%Z 3 50) =
    OutOfFuel /\
  length (fst (run (favoring_world 51 7 (fun _ => 0%R)) 1000
                 [5; 9; 2; 4]%Z 3 50)) = 1000%nat.
Proof.
  apply (generate_sequence_long_prompt_diverges
           (favoring_world 51 7 (fun _ => 0%R)) 1000 [] [5; 9; 2; 4]%Z 3 50).
  - intros calls ids. exists 7%Z. split; [|lia].
    apply (favoring_world_sampled 51 7); [intros; lra | lia].
  - simpl. lia.
Defined.

(** ** Failing iterations *)

Lemma py_index_short {A : Type} (l : list A) (i : Z) :
  (Z.of_nat (length l) < Z.max 1 (i + 1))%Z -> (-1 <= i)%Z ->
  py_index l i = Err IndexError.
Proof.
  intros H Hi. unfold py_index.
  destruct (Z.ltb_spec i 0).
  - assert (i = -1)%Z by lia. subst i.
    assert (length l = O) by lia.
    destruct l; [reflexivity | discriminate].
  - destruct (Z.ltb_spec i 0); [lia|].
    destruct (Z.leb_spec (Z.of_nat (length l)) i); [reflexivity | lia].
Qed.

(** X13. An iteration whose tensor has no row at position
    [cur_input_len - 1] ends the run with IndexError, and an iteration
    whose row at that position is not a row of logits with a real score
    (it is empty, holds a NaN or a plus infinity, or is all minus
    infinity) ends it with ValueError; the model has been called, and
    [input_ids] is lost. *)
Theorem generate_sequence_raises (w : world) (fuel : nat)
  (calls : list (list Z)) (input_ids : list Z)
  (max_sequence_length eos_token_id : Z) (outputs : list (list float)) :
  compiled_model w (length calls)
    (padded input_ids max_sequence_length eos_token_id) = Ok outputs ->
  let r := generate_sequence w (S fuel) calls input_ids max_sequence_length
             eos_token_id in
  ((Z.of_nat (length outputs) < Z.max 1 (Z.of_nat (length input_ids)))%Z ->
   r = (calls ++ [padded input_ids max_sequence_length eos_token_id],
        Raised IndexError)) /\
  (forall row,
     py_index outputs (Z.of_nat (length input_ids) - 1) = Ok row ->
     ~ logit_row row ->
     r = (calls ++ [padded input_ids max_sequence_length eos_token_id],
          Raised ValueError)).
Proof.
  intros Hmodel r. unfold r. rewrite generate_sequence_unfold.
  unfold sampled_token. rewrite Hmodel. simpl. unfold next_token. split.
  - intros Hshort. rewrite py_index_short by lia. reflexivity.
  - intros row Hrow Hbad. rewrite Hrow. simpl.
    rewrite process_logits_default. simpl.
    pose proof (sample_bad_row row top_k_default
                  (random_sample w (length calls)) Hbad) as Herr.
    unfold sample in Herr. rewrite Herr. reflexivity.
Qed.

Lemma generate_sequence_raises_witness :
  run (constant_world [] (fun _ => 0%R)) 1 [5; 9]%Z 4 50 =
    ([[5; 9; 50; 50]%Z], Raised IndexError) /\
  run (constant_world [[Fin 1]; [Fin 1; NaN]] (fun _ => 0%R)) 1 [5; 9]%Z 4 50 =
    ([[5; 9; 50; 50]%Z], Raised ValueError).
Proof.
  destruct (generate_sequence_raises (constant_world [] (fun _ => 0%R)) 0 []
              [5; 9]%Z 4 50 []) as [H1 _]; [reflexivity|].
  destruct (generate_sequence_raises
              (constant_world [[Fin 1]; [Fin 1; NaN]] (fun _ => 0%R)) 0 []
              [5; 9]%Z 4 50 [[Fin 1]; [Fin 1; NaN]]) as [_ H2];
    [reflexivity|].
  split.
  - apply H1. simpl. lia.
  - apply (H2 [Fin 1; NaN]); [reflexivity|].
    intros [H _]. inversion H as [|? ? _ H']. inversion H' as [|? ? F _].
    exact F.
Defined.

(** ** Generated tokens are tokens of the vocabulary *)

Lemma py_index_In {A : Type} (l : list A) (i : Z) (a : A) :
  py_index l i = Ok a -> In a l.
Proof.
  unfold py_index.
  destruct (_ || _)%bool; [discriminate|].
  destruct (nth_error l _) as [b|] eqn:E; [|discriminate].
  intros H. inversion H; subst. eapply nth_error_In; eauto.
Qed.

Lemma sampled_token_in_vocabulary (w : world) (V : nat)
  (calls : list (list Z)) (input_ids : list Z)
  (max_sequence_length eos_token_id tok : Z) :
  vocabulary_model w V -> valid_draws w ->
  sampled_token w calls input_ids max_sequence_length eos_token_id = Ok tok ->
  (0 <= tok < Z.of_nat V)%Z.
Proof.
  intros Hmodel Hdraws. unfold sampled_token.
  destruct (Hmodel (length calls)
              (padded input_ids max_sequence_length eos_token_id))
    as (outputs & -> & _ & Hrows).
  simpl.
  destruct (py_index outputs (Z.of_nat (length input_ids) - 1))
    as [row|e] eqn:E; [|unfold next_token; rewrite E; discriminate].
  rewrite Forall_forall in Hrows.
  destruct (Hrows row (py_index_In _ _ _ E)) as [Hrow HV].
  destruct (next_token_row outputs input_ids eos_token_id
              (random_sample w (length calls)) row E Hrow
              (Hdraws (length calls))) as (i & r & -> & Hn).
  intros H. inversion H; subst.
  assert (i < length row)%nat by (apply nth_error_Some; congruence). lia.
Qed.

(** X14. With a model over a vocabulary of [V] tokens and samples of
    [[0, 1)], every token that a run appends to the prompt is a token of
    the vocabulary, between 0 and [V - 1], and is not [eos_token_id]. *)
Theorem generate_sequence_appends_vocabulary (w : world) (V : nat)
  (fuel : nat) (calls calls' : list (list Z)) (input_ids out : list Z)
  (max_sequence_length eos_token_id : Z) :
  vocabulary_model w V -> valid_draws w ->
  generate_sequence w fuel calls input_ids max_sequence_length
    eos_token_id = (calls', Returned out) ->
  exists suffix,
    out = input_ids ++ suffix /\
    Forall (fun tok => (0 <= tok < Z.of_nat V)%Z /\ tok <> eos_token_id)
      suffix.
Proof.
  intros Hmodel Hdraws. revert calls input_ids.
  induction fuel as [|fuel IH]; intros calls ids.
  - simpl. discriminate.
  - rewrite generate_sequence_unfold.
    destruct (sampled_token w calls ids max_sequence_length eos_token_id)
      as [tok|e] eqn:Es; [|discriminate].
    destruct (Z.eqb_spec (Z.of_nat (length ids)) max_sequence_length)
      as [E|E]; simpl.
    + intros H. inversion H; subst. exists []. rewrite app_nil_r. auto.
    + destruct (Z.eqb_spec tok eos_token_id) as [E'|E'].
      * intros H. inversion H; subst. exists []. rewrite app_nil_r. auto.
      * intros H. apply IH in H. destruct H as (suffix & -> & Hall).
        exists (tok :: suffix). rewrite <- app_assoc. split; [reflexivity|].
        constructor; [|exact Hall]. split; [|exact E'].
        eapply sampled_token_in_vocabulary; eauto.
Qed.

Lemma favoring_world_vocabulary (V tok : nat) (rnd : nat -> R) :
  (tok < V)%nat -> vocabulary_model (favoring_world V tok rnd) V.
Proof.
  intros Htok n x. eexists. split; [reflexivity|].
  split; [apply repeat_length|].
  apply Forall_forall. intros row Hrow. apply repeat_spec in Hrow.
  subst. split; [apply favoring_logit_row|].
  unfold favoring. rewrite length_app, repeat_length. simpl.
  rewrite repeat_length. lia.
Qed.

Lemma generate_sequence_appends_vocabulary_witness :
  exists suffix,
    [5; 9; 2; 7; 7]%Z = [5; 9; 2]%Z ++ suffix /\
    Forall (fun tok => (0 <= tok < 51)%Z /\ tok <> 50%Z) suffix.
Proof.
  apply (generate_sequence_appends_vocabulary
           (favoring_world 51 7 (fun _ => 0%R)) 51 3 []
           [[5; 9; 2; 50; 50]; [5; 9; 2; 7; 50]; [5; 9; 2; 7; 7]]%Z
           [5; 9; 2]%Z [5; 9; 2; 7; 7]%Z 5 50).
  - apply favoring_world_vocabulary. lia.
  - intros n. simpl. lra.
  - exact favoring_world_run_fill.
Defined.

(** ** The last iteration, and the best score *)

(** X15. A run that returns has made its last call of the model on the
    returned sequence itself (padded), and has discarded the token
    sampled from that call; it stopped because the sequence had
    [max_sequence_length] tokens or because that token was
    [eos_token_id]. *)
Theorem generate_sequence_last_iteration (w : world) (fuel : nat)
  (calls calls' : list (list Z)) (input_ids out : list Z)
  (max_sequence_length eos_token_id : Z) :
  generate_sequence w fuel calls input_ids max_sequence_length
    eos_token_id = (calls', Returned out) ->
  exists calls0 tok,
    calls' = calls0 ++ [padded out max_sequence_length eos_token_id] /\
    sampled_token w calls0 out max_sequence_length eos_token_id = Ok tok /\
    (Z.of_nat (length out) = max_sequence_length \/ tok = eos_token_id).
Proof.
  revert calls input_ids.
  induction fuel as [|fuel IH]; intros calls ids.
  - simpl. discriminate.
  - rewrite generate_sequence_unfold.
    destruct (sampled_token w calls ids max_sequence_length eos_token_id)
      as [tok|e] eqn:Es; [|discriminate].
    destruct ((Z.of_nat (length ids) =? max_sequence_length)
              || (tok =? eos_token_id))%Z eqn:Estop.
    + intros H. inversion H; subst. exists calls, tok.
      split; [reflexivity|]. split; [exact Es|].
      apply orb_true_iff in Estop.
      destruct Estop as [E|E]; apply Z.eqb_eq in E; auto.
    + apply IH.
Qed.

Lemma generate_sequence_last_iteration_witness :
  exists calls0 tok,
    [[5; 9; 2; 50; 50]; [5; 9; 2; 7; 50]; [5; 9; 2; 7; 7]]%Z =
      calls0 ++ [padded [5; 9; 2; 7; 7]%Z 5 50] /\
    sampled_token (favoring_world 51 7 (fun _ => 0%R)) calls0
      [5; 9; 2; 7; 7]%Z 5 50 = Ok tok /\
    (Z.of_nat (length [5; 9; 2; 7; 7]%Z) = 5%Z \/ tok = 50%Z).
Proof.
  exact (generate_sequence_last_iteration _ _ _ _ _ _ _ _
           favoring_world_run_fill).
Defined.

(** X16. Top-K truncation never removes a best score: an entry that no
    entry of the row exceeds is left unchanged, whatever [top_k]. *)
Theorem get_top_k_logits_keeps_best (scores out : list float) (top_k : Z)
  (i : nat) (s : float) :
  no_nan scores ->
  get_top_k_logits scores top_k = Ok out ->
  nth_error scores i = Some s ->
  (forall x, In x scores -> fltb s x = false) ->
  nth_error out i = Some s.
Proof.
  intros Hnn Hrun Hs Hbest.
  pose proof (get_top_k_logits_nonempty _ _ _ Hrun) as Hne.
  destruct (get_top_k_logits_threshold scores top_k Hne Hnn)
    as (t & (Hin & _ & _) & Hrun').
  rewrite Hrun in Hrun'. inversion Hrun'; subst out.
  unfold truncate_below. rewrite nth_error_map, Hs. simpl.
  destruct (fltb s t) eqn:E; [|reflexivity].
  rewrite (Hbest t Hin) in E. discriminate.
Qed.

Lemma get_top_k_logits_keeps_best_witness :
  nth_error [NInf; Fin 3; Fin 4; NInf] 2 = Some (Fin 4).
Proof.
  apply (get_top_k_logits_keeps_best [Fin 1; Fin 3; Fin 4; Fin 2]
           [NInf; Fin 3; Fin 4; NInf] 2 2 (Fin 4)).
  - repeat constructor; discriminate.
  - exact get_top_k_logits_run.
  - reflexivity.
  - intros x [<-|[<-|[<-|[<-|[]]]]]; simpl; apply Rltb_false; lra.
Defined.

(** * Softmax in rounded arithmetic *)

(** ** Powers of [1 - u] and [1 + u] *)

Lemma pow_1mu_lower (u : R) (n : nat) :
  0 <= u <= 1 -> 1 - INR n * u <= (1 - u) ^ n.
Proof.
  intros Hu. induction n as [|n IH].
  - simpl. lra.
  - rewrite S_INR. simpl pow.
    assert (0 <= (1 - u) ^ n) by (apply pow_le; lra).
    pose proof (pos_INR n). nra.
Qed.

Lemma pow_1pu_upper (u : R) (n : nat) :
  0 <= u -> 2 * INR n * u <= 1 -> (1 + u) ^ n <= 1 + 2 * INR n * u.
Proof.
  intros Hu. induction n as [|n IH]; intros Hn.
  - simpl. lra.
  - rewrite S_INR in *. simpl pow.
    pose proof (pos_INR n).
    assert (IH' : (1 + u) ^ n <= 1 + 2 * INR n * u) by (apply IH; nra).
    assert (0 <= (1 + u) ^ n) by (apply pow_le; lra).
    nra.
Qed.

Lemma pow_1mu_anti (u : R) (m n : nat) :
  0 <= u <= 1 -> (m <= n)%nat -> (1 - u) ^ n <= (1 - u) ^ m.
Proof.
  intros Hu Hmn. induction Hmn as [|n Hmn IH]; [lra|].
  simpl pow. assert (0 <= (1 - u) ^ n) by (apply pow_le; lra). nra.
Qed.

Lemma pow_1pu_mono (u : R) (m n : nat) :
  0 <= u -> (m <= n)%nat -> (1 + u) ^ m <= (1 + u) ^ n.
Proof. intros Hu Hmn. apply Rle_pow; [lra | exact Hmn]. Qed.

(** ** The error of a sum *)

Lemma Rsum_app (l1 l2 : list R) : Rsum (l1 ++ l2) = Rsum l1 + Rsum l2.
Proof. induction l1 as [|a l1 IH]; simpl; [|rewrite IH]; lra. Qed.

Lemma Rsum_perm (l l' : list R) : Permutation l l' -> Rsum l = Rsum l'.
Proof. induction 1; simpl; lra. Qed.

Lemma sums_to_nonempty (A : arith) (l : list float) (s : float) :
  sums_to A l s -> l <> [].
Proof.
  induction 1 as [a | l1 l2 s1 s2 H1 IH1 H2 IH2 | l l' s HP H IH].
  - discriminate.
  - destruct l1; [congruence | discriminate].
  - intros ->. apply Permutation_sym, Permutation_nil in HP. auto.
Qed.

Lemma map_Fin_inj (l l' : list R) : map Fin l = map Fin l' -> l = l'.
Proof.
  revert l'. induction l as [|a l IH]; intros [|b l']; simpl; intros H;
    try discriminate; auto.
  inversion H. f_equal; auto.
Qed.

(** A sum of [n] non-negative values, however it is ordered and
    bracketed, is off by a factor between [(1 - u)^(n-1)] and
    [(1 + u)^(n-1)]. *)
Lemma sums_to_bound (A : arith) (u eta omega : R) :
  standard_model A u eta omega -> u <= 1 ->
  forall l s, sums_to A l s ->
  forall es, l = map Fin es -> Forall (fun e => 0 <= e) es ->
    Rsum es * (1 + u) ^ (length es - 1) <= omega ->
    exists r, s = Fin r /\
      Rsum es * (1 - u) ^ (length es - 1) <= r
      <= Rsum es * (1 + u) ^ (length es - 1).
Proof.
  intros HA Hu1. pose proof (sm_u _ _ _ _ HA) as Hu0.
  induction 1 as [a | l1 l2 s1 s2 H1 IH1 H2 IH2 | l l' s HP H IH];
    intros es Hes Hpos Hom.
  - destruct es as [|e [|e' es]]; try discriminate.
    inversion Hes; subst. exists e. split; [reflexivity|].
    simpl. lra.
  - symmetry in Hes. apply map_eq_app in Hes.
    destruct Hes as (es1 & es2 & -> & <- & <-).
    apply Forall_app in Hpos. destruct Hpos as [Hpos1 Hpos2].
    pose proof (sums_to_nonempty _ _ _ H1) as Hne1.
    pose proof (sums_to_nonempty _ _ _ H2) as Hne2.
    assert (Hn1 : (1 <= length es1)%nat)
      by (destruct es1; [simpl in Hne1; congruence | simpl; lia]).
    assert (Hn2 : (1 <= length es2)%nat)
      by (destruct es2; [simpl in Hne2; congruence | simpl; lia]).
    pose proof (Rsum_nonneg _ Hpos1) as Hs1.
    pose proof (Rsum_nonneg _ Hpos2) as Hs2.
    rewrite length_app, Rsum_app in *.
    set (k := (length es1 + length es2 - 1)%nat) in *.
    assert (Hk : k = S (k - 1)) by (unfold k; lia).
    pose proof (pow_1pu_mono u (length es1 - 1) (k - 1) Hu0
                  ltac:(unfold k; lia)) as Hb1.
    pose proof (pow_1pu_mono u (length es2 - 1) (k - 1) Hu0
                  ltac:(unfold k; lia)) as Hb2.
    pose proof (pow_1pu_mono u (k - 1) k Hu0 ltac:(lia)) as Hb3.
    pose proof (pow_1mu_anti u (length es1 - 1) (k - 1) (conj Hu0 Hu1)
                  ltac:(unfold k; lia)) as Ha1.
    pose proof (pow_1mu_anti u (length es2 - 1) (k - 1) (conj Hu0 Hu1)
                  ltac:(unfold k; lia)) as Ha2.
    assert (Hpa : 0 <= (1 - u) ^ (k - 1)) by (apply pow_le; lra).
    assert (Hpa1 : 0 <= (1 - u) ^ (length es1 - 1)) by (apply pow_le; lra).
    assert (Hpa2 : 0 <= (1 - u) ^ (length es2 - 1)) by (apply pow_le; lra).
    assert (Hpb : 1 <= (1 + u) ^ (k - 1)).
    { pose proof (pow_1pu_mono u 0 (k - 1) Hu0 ltac:(lia)) as Hb0.
      simpl in Hb0. exact Hb0. }
    assert (Hpb1 : 0 <= (1 + u) ^ (length es1 - 1)) by (apply pow_le; lra).
    assert (Hpb2 : 0 <= (1 + u) ^ (length es2 - 1)) by (apply pow_le; lra).
    assert (Hkb : (1 + u) ^ k = (1 + u) ^ (k - 1) * (1 + u))
      by (rewrite Hk at 1; simpl; ring).
    assert (Hka : (1 - u) ^ k = (1 - u) ^ (k - 1) * (1 - u))
      by (rewrite Hk at 1; simpl; ring).
    destruct (IH1 es1 eq_refl Hpos1) as (r1 & -> & Hr1); [nra|].
    destruct (IH2 es2 eq_refl Hpos2) as (r2 & -> & Hr2); [nra|].
    destruct (sm_add _ _ _ _ HA r1 r2) as (r & Hr & Hbnd); [nra | nra | nra |].
    exists r. split; [exact Hr|]. rewrite Hkb, Hka.
    assert (Hlo : (Rsum es1 + Rsum es2) * (1 - u) ^ (k - 1) <= r1 + r2).
    { assert (Rsum es1 * (1 - u) ^ (k - 1)
              <= Rsum es1 * (1 - u) ^ (length es1 - 1))
        by (apply Rmult_le_compat_l; lra).
      assert (Rsum es2 * (1 - u) ^ (k - 1)
              <= Rsum es2 * (1 - u) ^ (length es2 - 1))
        by (apply Rmult_le_compat_l; lra).
      lra. }
    assert (Hhi : r1 + r2 <= (Rsum es1 + Rsum es2) * (1 + u) ^ (k - 1)).
    { assert (Rsum es1 * (1 + u) ^ (length es1 - 1)
              <= Rsum es1 * (1 + u) ^ (k - 1))
        by (apply Rmult_le_compat_l; lra).
      assert (Rsum es2 * (1 + u) ^ (length es2 - 1)
              <= Rsum es2 * (1 + u) ^ (k - 1))
        by (apply Rmult_le_compat_l; lra).
      lra. }
    split.
    + apply Rle_trans with ((r1 + r2) * (1 - u)); [|lra].
      rewrite <- Rmult_assoc. apply Rmult_le_compat_r; lra.
    + apply Rle_trans with ((r1 + r2) * (1 + u)); [lra|].
      rewrite <- Rmult_assoc. apply Rmult_le_compat_r; lra.
  - subst l'. apply Permutation_map_inv in HP.
    destruct HP as (es0 & -> & HP).
    assert (Hlen : length es0 = length es)
      by (symmetry; apply Permutation_length, HP).
    rewrite (Rsum_perm _ _ HP), <- Hlen in *.
    apply (IH es0 eq_refl); auto.
    eapply Permutation_Forall; [exact HP | exact Hpos].
Qed.

(** ** The exponentials and the quotients *)

Lemma exp_row_fl (A : arith) (u eta omega : R) (x : list float) (mx : R) :
  standard_model A u eta omega ->
  Forall is_logit x -> (forall v, In v x -> fle v (Fin mx)) ->
  exists es,
    map (fun v => r_exp A (r_sub A v (Fin mx))) x = map Fin es /\
    Forall (fun e => 0 <= e <= 1) es /\
    (forall i, nth_error x i = Some NInf -> nth_error es i = Some 0) /\
    (forall i, nth_error x i = Some (Fin mx) -> nth_error es i = Some 1).
Proof.
  intros HA Hlog. induction Hlog as [|a x Ha Hx IH]; intros Hle.
  - exists []. repeat split; auto; intros [|i]; simpl; discriminate.
  - destruct IH as (es & Heq & Hrange & Hinf & Hmax);
      [intros v Hv; apply Hle; simpl; auto|].
    assert (He : exists e, r_exp A (r_sub A a (Fin mx)) = Fin e /\
                           0 <= e <= 1 /\ (a = NInf -> e = 0)).
    { pose proof (Hle a (or_introl eq_refl)) as Hamx.
      destruct a as [| | |r]; simpl in Ha, Hamx; try tauto.
      - exists 0. rewrite (sm_sub_ninf _ _ _ _ HA), (sm_exp_ninf _ _ _ _ HA).
        repeat split; auto; lra.
      - destruct (sm_sub_le _ _ _ _ HA r mx Hamx) as [E|(d & E & Hd)];
          rewrite E.
        + exists 0. rewrite (sm_exp_ninf _ _ _ _ HA).
          repeat split; try lra; discriminate.
        + destruct (sm_exp_neg _ _ _ _ HA d Hd) as (e & He & Hrg).
          exists e. repeat split; try tauto; discriminate. }
    destruct He as (e & He & Hrg & Hzero).
    exists (e :: es). simpl. rewrite He, Heq. repeat split; auto.
    + intros [|i]; simpl; auto. intros E. inversion E. f_equal. auto.
    + intros [|i]; simpl; auto. intros E. inversion E; subst a.
      rewrite (sm_sub_self _ _ _ _ HA), (sm_exp_0 _ _ _ _ HA) in He.
      congruence.
Qed.

Lemma div_row_fl (A : arith) (u eta omega s : R) (es : list R) :
  standard_model A u eta omega -> / 2 <= s ->
  Forall (fun e => 0 <= e <= 1) es ->
  exists qs,
    map (fun e => r_div A e (Fin s)) (map Fin es) = map Fin qs /\
    Forall2 (fun e q => 0 <= q /\
               e / s * (1 - u) - eta <= q <= e / s * (1 + u) + eta) es qs /\
    (forall i, nth_error es i = Some 0 -> nth_error qs i = Some 0).
Proof.
  intros HA Hs Hrange. induction Hrange as [|e es He Hes IH].
  - exists []. repeat split; auto; intros [|i]; simpl; discriminate.
  - destruct IH as (qs & Heq & Hall & Hzero).
    destruct (sm_div _ _ _ _ HA e s He Hs) as (q & Hq & Hq0 & Hbnd).
    exists (q :: qs). simpl. rewrite Hq, Heq. repeat split; auto.
    intros [|i]; simpl; auto. intros E. inversion E; subst e.
    rewrite (sm_div_0 _ _ _ _ HA) in Hq by lra. congruence.
Qed.

Lemma Forall2_sum_bounds (s u eta : R) (es qs : list R) :
  Forall2 (fun e q => 0 <= q /\
             e / s * (1 - u) - eta <= q <= e / s * (1 + u) + eta) es qs ->
  length qs = length es /\
  Forall (fun q => 0 <= q) qs /\
  Rsum es / s * (1 - u) - INR (length es) * eta <= Rsum qs
  <= Rsum es / s * (1 + u) + INR (length es) * eta.
Proof.
  induction 1 as [|e q es qs [Hq Hb] Hall (Hlen & Hpos & IH)].
  - simpl. repeat split; auto; unfold Rdiv; lra.
  - split; [simpl; congruence|]. split; [constructor; auto|].
    change (length (e :: es)) with (S (length es)). rewrite S_INR.
    simpl Rsum. unfold Rdiv in *. lra.
Qed.

(** ** The sum of the probabilities *)

Lemma ratio_bounds (E s a b u t : R) :
  0 <= u <= t -> t <= / 2 -> 1 <= E ->
  E * a <= s <= E * b ->
  1 - (t - u) <= a -> 1 <= b <= 1 + 2 * (t - u) ->
  1 - 2 * t <= E / s * (1 - u) /\ E / s * (1 + u) <= 1 + 2 * t.
Proof.
  intros Hu Ht HE Hs Ha Hb.
  assert (Hs0 : 0 < s) by nra.
  set (c := E / s).
  assert (Hc : c * s = E) by (unfold c; field; lra).
  assert (Hc0 : 0 <= c).
  { unfold c. apply Rmult_le_pos; [lra|]. left. apply Rinv_0_lt_compat, Hs0. }
  assert (Hca : c * a <= 1).
  { apply Rmult_le_reg_r with s; [exact Hs0|]. nra. }
  assert (Hcb : 1 <= c * b).
  { apply Rmult_le_reg_r with s; [exact Hs0|]. nra. }
  split.
  - assert (H1 : (1 - 2 * t) * (1 + 2 * (t - u)) <= 1 - u) by nra.
    assert (H2 : 1 <= c * (1 + 2 * (t - u))) by nra.
    assert (H3 : (1 - 2 * t) * 1 <= (1 - 2 * t) * (c * (1 + 2 * (t - u))))
      by (apply Rmult_le_compat_l; lra).
    assert (H4 : c * ((1 - 2 * t) * (1 + 2 * (t - u))) <= c * (1 - u))
      by (apply Rmult_le_compat_l; lra).
    lra.
  - assert (H1 : 1 + u <= (1 - (t - u)) * (1 + 2 * t)) by nra.
    assert (H2 : c * (1 + u) <= c * ((1 - (t - u)) * (1 + 2 * t)))
      by (apply Rmult_le_compat_l; lra).
    assert (H3 : c * (1 - (t - u)) <= 1) by nra.
    assert (H4 : c * (1 - (t - u)) * (1 + 2 * t) <= 1 * (1 + 2 * t))
      by (apply Rmult_le_compat_r; lra).
    lra.
Qed.

Lemma Rsum_le_length (es : list R) :
  Forall (fun e => 0 <= e <= 1) es -> Rsum es <= INR (length es).
Proof.
  induction 1 as [|e es He Hes IH]; [simpl; lra|].
  change (length (e :: es)) with (S (length es)). rewrite S_INR.
  simpl. lra.
Qed.

Lemma binary64_tolerance (u n : R) :
  0 <= u <= / 2 ^ 53 -> 0 <= n <= 2 ^ 30 -> 8 * n * u <= / 10 ^ 6.
Proof.
  intros Hu Hn.
  assert (H : n * u <= 2 ^ 30 * / 2 ^ 53) by (apply Rmult_le_compat; lra).
  assert (H' : 8 * (2 ^ 30 * / 2 ^ 53) <= / 10 ^ 6) by lra.
  lra.
Qed.

(** C7, as amended.  In rounded arithmetic with unit roundoff [u], on a
    row of [V] real scores and minus infinities that holds one real
    score at least, with [V * u <= 1/2]: [softmax] returns a row of the
    same length whose entries are finite and non-negative; every entry
    that was minus infinity is mapped to zero; the entries sum to 1
    within [3 * V * u], and their sum computed in the same arithmetic is
    1 within [8 * V * u].  In float64 ([u = 2^-53]) and for a row of at
    most [2^30] entries both are within [10^-6] of 1. *)
Theorem softmax_fl_distribution (A : arith) (sum : list float -> float)
  (u eta omega : R) (x : list float) :
  standard_model A u eta omega ->
  (forall l, l <> [] -> sums_to A l (sum l)) ->
  logit_row x ->
  INR (length x) * u <= / 2 ->
  2 * INR (length x) <= omega ->
  exists ps s,
    softmax_fl A sum x = Ok (map Fin ps) /\
    length ps = length x /\
    Forall (fun p => 0 <= p) ps /\
    (forall i, nth_error x i = Some NInf -> nth_error ps i = Some 0) /\
    Rabs (Rsum ps - 1) <= 3 * INR (length x) * u /\
    sum (map Fin ps) = Fin s /\
    Rabs (s - 1) <= 8 * INR (length x) * u /\
    (u <= / 2 ^ 53 -> INR (length x) <= 2 ^ 30 ->
     Rabs (Rsum ps - 1) <= / 10 ^ 6 /\ Rabs (s - 1) <= / 10 ^ 6).
Proof.
  intros HA Hsum Hrow Ht Hom.
  pose proof (sm_u _ _ _ _ HA) as Hu0.
  pose proof (sm_eta _ _ _ _ HA) as Heta.
  pose proof (sm_omega _ _ _ _ HA) as Hom5.
  pose proof (logit_row_nonempty x Hrow) as Hne.
  destruct (np_max_logit_row x Hrow) as (mx & Hmax & Hin & Hle).
  destruct (exp_row_fl A u eta omega x mx HA (proj1 Hrow) Hle)
    as (es & Heq & Hrange & Hinf & Hone).
  assert (Hlen : length es = length x).
  { apply (f_equal (@length _)) in Heq. rewrite !length_map in Heq. auto. }
  assert (Hn1 : (1 <= length x)%nat)
    by (destruct x; [congruence | simpl; lia]).
  set (n := length x) in *. set (t := INR n * u) in *.
  assert (HnR : 1 <= INR n) by (apply (le_INR 1), Hn1).
  assert (Hkn : INR (n - 1) = INR n - 1)
    by (rewrite minus_INR by exact Hn1; reflexivity).
  assert (Hut : u <= t) by (unfold t; nra).
  assert (Hu1 : u <= 1) by lra.
  assert (Hpos : Forall (fun e => 0 <= e) es)
    by (eapply Forall_impl; [|exact Hrange]; simpl; intros; lra).
  assert (HE1 : 1 <= Rsum es).
  { apply In_nth_error in Hin. destruct Hin as [i Hi].
    apply Hone in Hi. apply nth_error_In in Hi. apply Rsum_In_le; auto. }
  assert (HEn : Rsum es <= INR n)
    by (rewrite <- Hlen; apply Rsum_le_length, Hrange).
  assert (Ha : 1 - (t - u) <= (1 - u) ^ (n - 1)).
  { pose proof (pow_1mu_lower u (n - 1) (conj Hu0 Hu1)) as H.
    rewrite Hkn in H. unfold t. lra. }
  assert (Ha1 : (1 - u) ^ (n - 1) <= 1).
  { pose proof (pow_1mu_anti u 0 (n - 1) (conj Hu0 Hu1) ltac:(lia)) as H.
    simpl in H. exact H. }
  assert (Hb : 1 <= (1 + u) ^ (n - 1) <= 1 + 2 * (t - u)).
  { split.
    - pose proof (pow_1pu_mono u 0 (n - 1) Hu0 ltac:(lia)) as H.
      simpl in H. exact H.
    - pose proof (pow_1pu_upper u (n - 1) Hu0) as H.
      rewrite Hkn in H. unfold t.
      apply Rle_trans with (1 := H ltac:(unfold t in *; nra)).
      lra. }
  assert (Hnes : map Fin es <> [])
    by (destruct es; [simpl in Hlen; lia | discriminate]).
  destruct (sums_to_bound A u eta omega HA Hu1 _ _ (Hsum _ Hnes) es eq_refl
              Hpos) as (s & Hs & Hsb).
  { rewrite Hlen. fold n. nra. }
  rewrite Hlen in Hsb. fold n in Hsb.
  assert (Hshalf : / 2 <= s) by nra.
  destruct (div_row_fl A u eta omega s es HA Hshalf Hrange)
    as (qs & Hq & Hall & Hzero).
  destruct (Forall2_sum_bounds s u eta es qs Hall) as (Hlq & Hqpos & Hqb).
  rewrite Hlen in Hqb. fold n in Hqb.
  destruct (ratio_bounds (Rsum es) s ((1 - u) ^ (n - 1)) ((1 + u) ^ (n - 1))
              u t (conj Hu0 Hut) Ht HE1 Hsb Ha Hb) as [Hlo Hhi].
  assert (Hneta : 0 <= INR n * eta <= t) by (unfold t; nra).
  assert (Hq3 : 1 - 3 * t <= Rsum qs <= 1 + 3 * t) by lra.
  pose proof (Rsum_nonneg qs Hqpos) as Hq0.
  assert (Hnqs : map Fin qs <> [])
    by (destruct qs; [simpl in Hlq; lia | discriminate]).
  destruct (sums_to_bound A u eta omega HA Hu1 _ _ (Hsum _ Hnqs) qs eq_refl
              Hqpos) as (s' & Hs' & Hsb').
  { rewrite Hlq, Hlen. fold n. nra. }
  rewrite Hlq, Hlen in Hsb'. fold n in Hsb'.
  assert (Hs8 : 1 - 8 * t <= s' <= 1 + 8 * t).
  { split.
    - destruct (Rle_dec (3 * t) 1) as [H3|H3]; nra.
    - nra. }
  exists qs, s'.
  split.
  { unfold softmax_fl. rewrite Hmax. simpl. rewrite Heq, Hs, Hq.
    reflexivity. }
  split; [congruence|]. split; [exact Hqpos|]. split.
  { intros i Hi. apply Hzero, Hinf, Hi. }
  assert (Hexact : Rabs (Rsum qs - 1) <= 3 * t) by (apply Rabs_le; lra).
  assert (Hfloat : Rabs (s' - 1) <= 8 * t) by (apply Rabs_le; lra).
  unfold t in Hexact, Hfloat.
  split; [lra|]. split; [exact Hs'|]. split; [lra|].
  intros Hu53 Hn30.
  pose proof (binary64_tolerance u (INR n) (conj Hu0 Hu53)
                (conj (pos_INR n) Hn30)) as Htol.
  split; lra.
Qed.

(** ** Instances of the arithmetic *)

(** With the exact operations and the sum from the left, [softmax_fl]
    is [softmax]. *)
Lemma softmax_fl_exact (x : list float) :
  softmax_fl exact_arith np_sum x = softmax x.
Proof. reflexivity. Qed.

Lemma sequential_sum_from (A : arith) (l : list float) :
  forall pre s,
    sums_to A pre s -> sums_to A (pre ++ l) (fold_left (r_add A) l s).
Proof.
  induction l as [|b l IH]; intros pre s H; simpl.
  - rewrite app_nil_r. exact H.
  - change (b :: l) with ([b] ++ l). rewrite app_assoc.
    apply IH. apply sums_app; [exact H | apply sums_one].
Qed.

Lemma sequential_sum_sums_to (A : arith) (l : list float) :
  l <> [] -> sums_to A l (sequential_sum A l).
Proof.
  destruct l as [|a l]; [congruence|]. intros _. simpl.
  apply (sequential_sum_from A l [a] a), sums_one.
Qed.

Lemma lossy_arith_standard_model (u omega : R) :
  0 <= u <= 1 -> 5 <= omega ->
  standard_model (lossy_arith (1 - u)) u 0 omega.
Proof.
  intros Hu Hom.
  constructor; cbn [lossy_arith r_sub r_exp r_add r_div]; try lra.
  - intros a. unfold fsub. simpl. f_equal. lra.
  - intros a b Hab. right. exists (a + - b). split; [reflexivity | lra].
  - reflexivity.
  - reflexivity.
  - simpl. f_equal. apply exp_0.
  - intros d Hd. exists (exp d). split; [reflexivity|]. split.
    + left. apply exp_pos.
    + destruct Hd as [Hd | ->]; [|rewrite exp_0; lra].
      left. rewrite <- exp_0. apply exp_increasing, Hd.
  - intros a b Ha Hb _. exists (a + b). split; [reflexivity | nra].
  - intros e s He Hs.
    assert (Hs0 : 0 < s) by lra.
    assert (Hq : 0 <= e / s).
    { apply Rmult_le_pos; [lra|]. left. apply Rinv_0_lt_compat, Hs0. }
    exists (e / s * (1 - u)).
    rewrite (fdiv_Fin_pos e s Hs0). simpl.
    split; [reflexivity|]. split; nra.
  - intros s Hs. rewrite (fdiv_Fin_pos 0 s Hs). simpl. f_equal.
    unfold Rdiv. ring.
Qed.

(** A run in an arithmetic that loses one sixteenth in every division:
    the probabilities sum to [15/16]. *)
Example softmax_fl_run :
  softmax_fl (lossy_arith (1 - / 16)) (sequential_sum (lossy_arith (1 - / 16)))
    [Fin 0; NInf] = Ok [Fin (15 / 16); Fin 0].
Proof.
  unfold softmax_fl, sequential_sum, fsub. float_eval.
  rewrite Rplus_opp_r, exp_0. simpl. float_eval.
  replace (1 / (1 + 0) * (1 - / 16)) with (15 / 16) by field.
  replace (0 / (1 + 0) * (1 - / 16)) with 0 by field.
  reflexivity.
Qed.

Lemma softmax_fl_distribution_witness :
  exists ps s,
    softmax_fl (lossy_arith (1 - / 16))
      (sequential_sum (lossy_arith (1 - / 16))) [Fin 2; NInf; Fin 1] =
      Ok (map Fin ps) /\
    Forall (fun p => 0 <= p) ps /\
    nth_error ps 1 = Some 0 /\
    Rabs (Rsum ps - 1) <= 3 * INR 3 * / 16 /\
    sequential_sum (lossy_arith (1 - / 16)) (map Fin ps) = Fin s /\
    Rabs (s - 1) <= 8 * INR 3 * / 16.
Proof.
  destruct (softmax_fl_distribution (lossy_arith (1 - / 16))
              (sequential_sum (lossy_arith (1 - / 16))) (/ 16) 0 100
              [Fin 2; NInf; Fin 1])
    as (ps & s & Hrun & _ & Hpos & Hinf & Hsum & Hs & Hfl & _).
  - apply lossy_arith_standard_model; lra.
  - intros l Hl. apply sequential_sum_sums_to, Hl.
  - split; [repeat constructor | apply Exists_cons_hd; exact I].
  - simpl. lra.
  - simpl. lra.
  - exists ps, s. repeat split; auto.
Defined.

(** The special values do not depend on the rounding: on a row of
    nothing but minus infinity the rounded computation gives NaN as the
    exact one does. *)
Example softmax_fl_minus_infinity :
  softmax_fl exact_arith np_sum [NInf; NInf] = Ok [NaN; NaN] /\
  softmax_fl (lossy_arith (1 - / 16))
    (sequential_sum (lossy_arith (1 - / 16))) [NInf; NInf] = Ok [NaN; NaN].
Proof. split; reflexivity. Qed.
